(** * Gomoku board and search engine (game_hight_level.py)

    A shallow embedding of [Stone], [Board] and [AIPlayer] and the
    properties of the board operations, of the positional evaluator and
    of the alpha-beta driver; then of the event and frame logic of
    [Game], of the single-ply player of game.py and of the win test of
    main.py.

    Python integers are unbounded, so coordinates and scores are [Z].
    A colour is an RGB triple, as in the source.  The [timestamp] of a
    [Stone] is written by its constructor and read nowhere in the
    program, so the record leaves it out. *)

From Stdlib Require Import ZArith List Bool Lia Permutation Sorted.
Import ListNotations.
Local Open Scope Z_scope.

(** ** Constants and enumerations *)

Definition Color : Type := (Z * Z * Z)%type.

Definition BOARD_SIZE : Z := 15.
Definition BLACK : Color := (0, 0, 0).
Definition WHITE : Color := (255, 255, 255).

Definition color_eqb (c1 c2 : Color) : bool :=
  let '(r1, g1, b1) := c1 in
  let '(r2, g2, b2) := c2 in
  (r1 =? r2) && (g1 =? g2) && (b1 =? b2).

Inductive Difficulty : Type := EASY | MEDIUM | HARD.

(** ** Stone and Board *)

Record Stone : Type := mkStone {
  stone_x : Z;
  stone_y : Z;
  stone_color : Color
}.

Record Board : Type := mkBoard {
  size : Z;
  stones : list Stone;
  last_move : option Stone
}.

(** [Board.__init__] *)
Definition Board_init : Board := mkBoard BOARD_SIZE [] None.

(** [stone.x == x and stone.y == y] *)
Definition at_coord (x y : Z) (s : Stone) : bool :=
  (stone_x s =? x) && (stone_y s =? y).

(** [Board.is_valid_move] *)
Definition is_valid_move (b : Board) (x y : Z) : bool :=
  if (x <? 0) || (x >=? size b) || (y <? 0) || (y >=? size b) then false
  else negb (existsb (at_coord x y) (stones b)).

(** [Board.place_stone]: the new board and the returned flag. *)
Definition place_stone (b : Board) (x y : Z) (color : Color) : Board * bool :=
  if is_valid_move b x y then
    let stone := mkStone x y color in
    (mkBoard (size b) (stones b ++ [stone]) (Some stone), true)
  else (b, false).

(** [Board.get_stone_at]: the first stone of the list at the coordinate. *)
Definition get_stone_at (b : Board) (x y : Z) : option Stone :=
  find (at_coord x y) (stones b).

(** One arm of the scan of [Board.check_win]: [for i in range(1, 5)] with
    its [break]; [cell i] is the i-th cell of the arm. *)
Fixpoint win_arm (b : Board) (color : Color) (cell : Z -> Z * Z)
         (steps : list Z) (count : Z) : Z :=
  match steps with
  | [] => count
  | i :: rest =>
      let '(x, y) := cell i in
      match get_stone_at b x y with
      | None => count
      | Some stone =>
          if negb (color_eqb (stone_color stone) color) then count
          else win_arm b color cell rest (count + 1)
      end
  end.

Definition range_1_5 : list Z := [1; 2; 3; 4].

Definition directions : list (Z * Z) := [(1, 0); (0, 1); (1, 1); (1, -1)].

(** The body of the [for dx, dy in directions] loop of [check_win]:
    the count reached on one axis. *)
Definition win_count (b : Board) (s : Stone) (d : Z * Z) : Z :=
  let '(dx, dy) := d in
  let count := 1 in
  let count := win_arm b (stone_color s)
                 (fun i => (stone_x s + dx * i, stone_y s + dy * i))
                 range_1_5 count in
  let count := win_arm b (stone_color s)
                 (fun i => (stone_x s - dx * i, stone_y s - dy * i))
                 range_1_5 count in
  count.

(** [Board.check_win] *)
Definition check_win (b : Board) (last_stone : option Stone) : bool :=
  match last_stone with
  | None => false
  | Some s => existsb (fun d => win_count b s d >=? 5) directions
  end.

(** [Board.is_game_over] *)
Definition is_game_over (b : Board) : bool :=
  if (match last_move b with Some _ => true | None => false end)
       && check_win b (last_move b)
  then true
  else Z.of_nat (length (stones b)) =? size b * size b.

(** [Board.remove_stone] *)
Definition remove_stone (b : Board) (x y : Z) : Board :=
  let stones' := filter (fun stone => negb (at_coord x y stone)) (stones b) in
  match last_move b with
  | Some lm =>
      if (stone_x lm =? x) && (stone_y lm =? y)
      then mkBoard (size b) stones' None
      else mkBoard (size b) stones' (Some lm)
  | None => mkBoard (size b) stones' None
  end.

(** [Board.get_winner] *)
Definition get_winner (b : Board) : option Color :=
  match last_move b with
  | Some lm => if check_win b (Some lm) then Some (stone_color lm) else None
  | None => None
  end.

(** ** AIPlayer *)

(** Search values: [float('-inf')], a Python integer, [float('inf')]. *)
Inductive Number : Type :=
| NegInf : Number
| Int : Z -> Number
| PosInf : Number.

(** [a < b] on search values. *)
Definition num_ltb (a b : Number) : bool :=
  match a, b with
  | NegInf, NegInf => false
  | NegInf, _ => true
  | Int _, NegInf => false
  | Int p, Int q => p <? q
  | Int _, PosInf => true
  | PosInf, _ => false
  end.

(** [a <= b] on search values. *)
Definition num_leb (a b : Number) : bool := negb (num_ltb b a).

(** Python's [max(a, b)] keeps [a] unless [b > a]; [min(a, b)] keeps [a]
    unless [b < a]. *)
Definition py_max (a b : Number) : Number := if num_ltb a b then b else a.
Definition py_min (a b : Number) : Number := if num_ltb b a then b else a.

Record Weights : Type := mkWeights { w2 : Z; w3 : Z; w4 : Z; w5 : Z }.

(** [self.weights[difficulty]] *)
Definition weights (d : Difficulty) : Weights :=
  match d with
  | EASY => mkWeights 10 50 1000 100000
  | MEDIUM => mkWeights 20 100 2000 200000
  | HARD => mkWeights 30 200 4000 400000
  end.

(** [self.search_depth] *)
Definition search_depth (d : Difficulty) : nat :=
  match d with
  | EASY => 2
  | MEDIUM => 3
  | HARD => 4
  end%nat.

(** Python's [range(lo, hi)]. *)
Definition range (lo hi : Z) : list Z :=
  map (fun k => lo + Z.of_nat k) (seq 0 (Z.to_nat (hi - lo))).

(** The three counters of one axis in [_evaluate_position]. *)
Record Tally : Type := mkTally { count : Z; open_ends : Z; blocks : Z }.

(** One directional walk of [_evaluate_position]: [for i in range(1, 5)]
    with its [break]. *)
Fixpoint eval_arm (b : Board) (color : Color) (cell : Z -> Z * Z)
         (steps : list Z) (t : Tally) : Tally :=
  match steps with
  | [] => t
  | i :: rest =>
      let '(nx, ny) := cell i in
      match get_stone_at b nx ny with
      | Some stone =>
          if color_eqb (stone_color stone) color
          then eval_arm b color cell rest
                 (mkTally (count t + 1) (open_ends t) (blocks t))
          else mkTally (count t) (open_ends t) (blocks t + 1)
      | None => mkTally (count t) (open_ends t + 1) (blocks t)
      end
  end.

(** The tally of one axis after both walks. *)
Definition axis_tally (b : Board) (x y : Z) (color : Color) (d : Z * Z) : Tally :=
  let '(dx, dy) := d in
  let t := mkTally 1 0 0 in
  let t := eval_arm b color (fun i => (x + i * dx, y + i * dy)) range_1_5 t in
  let t := eval_arm b color (fun i => (x - i * dx, y - i * dy)) range_1_5 t in
  t.

(** The pattern table at the end of the axis loop. *)
Definition pattern_score (w : Weights) (t : Tally) : Z :=
  if count t >=? 5 then w5 w
  else if count t =? 4 then
    if open_ends t =? 2 then w4 w * 2
    else if open_ends t =? 1 then w4 w else 0
  else if count t =? 3 then
    if open_ends t =? 2 then w3 w * 2
    else if open_ends t =? 1 then w3 w else 0
  else if count t =? 2 then
    if open_ends t =? 2 then w2 w * 2
    else if open_ends t =? 1 then w2 w else 0
  else 0.

(** [AIPlayer._evaluate_position] *)
Definition _evaluate_position (d : Difficulty) (x y : Z) (b : Board)
           (color : Color) : Z :=
  fold_left
    (fun total_score dir =>
       total_score + pattern_score (weights d) (axis_tally b x y color dir))
    directions 0.

(** [AIPlayer._has_neighbor]; the early [return True] makes the two loops
    an existential scan. *)
Definition _has_neighbor (b : Board) (x y : Z) (distance : Z) : bool :=
  existsb
    (fun dx =>
       existsb
         (fun dy =>
            if (dx =? 0) && (dy =? 0) then false
            else
              let nx := x + dx in
              let ny := y + dy in
              if (0 <=? nx) && (nx <? size b) && (0 <=? ny) && (ny <? size b)
              then match get_stone_at b nx ny with
                   | Some _ => true
                   | None => false
                   end
              else false)
         (range (- distance) (distance + 1)))
    (range (- distance) (distance + 1)).

(** Python's [sorted(l, key=key, reverse=True)]: the sort is stable, also
    under [reverse], so its result is the one list that is descending in
    the key and keeps equal keys in their original order.  Insertion from
    the right computes that list. *)
Fixpoint insert_desc {A : Type} (key : A -> Z) (a : A) (l : list A) : list A :=
  match l with
  | [] => [a]
  | e :: r => if key a <? key e then e :: insert_desc key a r else a :: e :: r
  end.

Fixpoint sorted_reverse {A : Type} (key : A -> Z) (l : list A) : list A :=
  match l with
  | [] => []
  | a :: r => insert_desc key a (sorted_reverse key r)
  end.

(** The scan of [_get_valid_moves]: the scored candidates in the order
    they are appended. *)
Definition scored_candidates (d : Difficulty) (b : Board)
  : list (Z * (Z * Z)) :=
  flat_map
    (fun x =>
       flat_map
         (fun y =>
            if is_valid_move b x y && _has_neighbor b x y 2
            then [(_evaluate_position d x y b WHITE, (x, y))]
            else [])
         (range 0 (size b)))
    (range 0 (size b)).

(** [AIPlayer._get_valid_moves] *)
Definition _get_valid_moves (d : Difficulty) (b : Board) : list (Z * Z) :=
  map snd (sorted_reverse fst (scored_candidates d b)).

(** The accumulation loop of [_evaluate_board] over all cells. *)
Definition board_total (d : Difficulty) (b : Board) : Z :=
  fold_left
    (fun total_score x =>
       fold_left
         (fun total_score y =>
            if is_valid_move b x y then
              let total_score := total_score + _evaluate_position d x y b WHITE in
              let total_score := total_score - _evaluate_position d x y b BLACK in
              total_score
            else total_score)
         (range 0 (size b)) total_score)
    (range 0 (size b)) 0.

(** [AIPlayer._evaluate_board] *)
Definition _evaluate_board (d : Difficulty) (b : Board) : Number :=
  if is_game_over b then
    match get_winner b with
    | Some winner =>
        if color_eqb winner WHITE then PosInf
        else if color_eqb winner BLACK then NegInf
        else Int 0
    | None => Int 0
    end
  else Int (board_total d b).

(** [AIPlayer._alpha_beta].  The board is mutated in place by the trial
    placements, so the function returns the board it leaves behind next
    to the value.  [depth] counts down to the [depth == 0] test. *)
Fixpoint _alpha_beta (d : Difficulty) (depth : nat) (board : Board)
         (alpha beta : Number) (is_maximizing : bool) {struct depth}
  : Number * Board :=
  match depth with
  | O => (_evaluate_board d board, board)
  | S depth' =>
      if is_game_over board then (_evaluate_board d board, board)
      else
        let valid_moves := _get_valid_moves d board in
        if is_maximizing then
          (fix loop (moves : list (Z * Z)) (board : Board)
                    (alpha : Number) (max_eval : Number) {struct moves}
             : Number * Board :=
             match moves with
             | [] => (max_eval, board)
             | (x, y) :: rest =>
                 let board := fst (place_stone board x y WHITE) in
                 let '(eval, board) := _alpha_beta d depth' board alpha beta false in
                 let board := remove_stone board x y in
                 let max_eval := py_max max_eval eval in
                 let alpha := py_max alpha eval in
                 if num_leb beta alpha then (max_eval, board)
                 else loop rest board alpha max_eval
             end) valid_moves board alpha NegInf
        else
          (fix loop (moves : list (Z * Z)) (board : Board)
                    (beta : Number) (min_eval : Number) {struct moves}
             : Number * Board :=
             match moves with
             | [] => (min_eval, board)
             | (x, y) :: rest =>
                 let board := fst (place_stone board x y BLACK) in
                 let '(eval, board) := _alpha_beta d depth' board alpha beta true in
                 let board := remove_stone board x y in
                 let min_eval := py_min min_eval eval in
                 let beta := py_min beta eval in
                 if num_leb beta alpha then (min_eval, board)
                 else loop rest board beta min_eval
             end) valid_moves board beta PosInf
  end.

(** The [for move in valid_moves] loop of [AIPlayer.get_move]. *)
Fixpoint get_move_loop (d : Difficulty) (moves : list (Z * Z)) (board : Board)
         (alpha beta : Number) (best_score : Number)
         (best_move : option (Z * Z)) : option (Z * Z) * Board :=
  match moves with
  | [] => (best_move, board)
  | (x, y) :: rest =>
      let board := fst (place_stone board x y WHITE) in
      let '(score, board) :=
        _alpha_beta d (search_depth d - 1) board alpha beta false in
      let board := remove_stone board x y in
      let '(best_score, best_move) :=
        if num_ltb best_score score then (score, Some (x, y))
        else (best_score, best_move) in
      let alpha := py_max alpha best_score in
      get_move_loop d rest board alpha beta best_score best_move
  end.

(** [AIPlayer.get_move]: the chosen coordinate and the board it leaves. *)
Definition get_move (d : Difficulty) (board : Board) : (Z * Z) * Board :=
  let valid_moves := _get_valid_moves d board in
  let '(best_move, board') :=
    get_move_loop d valid_moves board NegInf PosInf NegInf None in
  (match best_move with
   | Some move => move
   | None => (size board / 2, size board / 2)
   end, board').

(** ** Vocabulary of the properties *)

Definition coord (s : Stone) : Z * Z := (stone_x s, stone_y s).

Definition in_bounds (b : Board) (x y : Z) : Prop :=
  0 <= x < size b /\ 0 <= y < size b.

Definition occupied (b : Board) (x y : Z) : Prop :=
  exists s, In s (stones b) /\ stone_x s = x /\ stone_y s = y.

(** At most one stone per coordinate. *)
Definition unique_coords (b : Board) : Prop := NoDup (map coord (stones b)).

(** Every stone lies on the grid. *)
Definition all_in_bounds (b : Board) : Prop :=
  Forall (fun s => in_bounds b (stone_x s) (stone_y s)) (stones b).

Definition board_inv (b : Board) : Prop := unique_coords b /\ all_in_bounds b.

(** Sequences of board mutations. *)
Inductive Op : Type :=
| Place (x y : Z) (color : Color)
| Remove (x y : Z).

Definition apply_op (b : Board) (op : Op) : Board :=
  match op with
  | Place x y color => fst (place_stone b x y color)
  | Remove x y => remove_stone b x y
  end.

Definition run_ops (ops : list Op) (b : Board) : Board := fold_left apply_op ops b.

(** The cell holds a stone of the given colour. *)
Definition has_color (b : Board) (x y : Z) (c : Color) : Prop :=
  exists s, In s (stones b) /\ stone_x s = x /\ stone_y s = y /\ stone_color s = c.

(** Five consecutive cells of the axis [d], the stone [s] among them, all
    hold stones of the colour of [s]. *)
Definition five_through (b : Board) (s : Stone) (d : Z * Z) : Prop :=
  exists k, 0 <= k <= 4 /\
    forall j, 0 <= j <= 4 ->
      has_color b (stone_x s + (j - k) * fst d) (stone_y s + (j - k) * snd d)
                (stone_color s).

(** The stone found at the cell has the colour looked for. *)
Definition matches (b : Board) (color : Color) (p : Z * Z) : bool :=
  match get_stone_at b (fst p) (snd p) with
  | Some stone => color_eqb (stone_color stone) color
  | None => false
  end.

(** The walk along [cell] stops at step [i]: the cells before it match,
    the i-th does not. *)
Definition stops_at (b : Board) (color : Color) (cell : Z -> Z * Z) (i : Z) : Prop :=
  (forall j, 1 <= j < i -> matches b color (cell j) = true) /\
  matches b color (cell i) = false.

(** The reading of an open end as a stop at an empty cell of the grid. *)
Definition open_end_needs_grid_cell (b : Board) (color : Color)
           (cell : Z -> Z * Z) : Prop :=
  forall i t, 1 <= i <= 4 -> stops_at b color cell i ->
    open_ends (eval_arm b color cell range_1_5 t) = open_ends t + 1 ->
    in_bounds b (fst (cell i)) (snd (cell i)) /\
    ~ occupied b (fst (cell i)) (snd (cell i)).

Definition sum_list (l : list Z) : Z := fold_right Z.add 0 l.

(** All cells of the grid, row by row, and the empty ones among them. *)
Definition all_cells (b : Board) : list (Z * Z) :=
  list_prod (range 0 (size b)) (range 0 (size b)).

Definition empty_cells (b : Board) : list (Z * Z) :=
  filter (fun p => is_valid_move b (fst p) (snd p)) (all_cells b).

(** The difference of the two colours' pattern scores at a cell. *)
Definition threat_difference (d : Difficulty) (b : Board) (p : Z * Z) : Z :=
  _evaluate_position d (fst p) (snd p) b WHITE
  - _evaluate_position d (fst p) (snd p) b BLACK.

(** The sum of the two colours' pattern scores at a cell, the ranking of
    [AIPlayer.get_move] in game.py. *)
Definition two_color_sum (d : Difficulty) (b : Board) (p : Z * Z) : Z :=
  _evaluate_position d (fst p) (snd p) b WHITE
  + _evaluate_position d (fst p) (snd p) b BLACK.

Definition white_score (d : Difficulty) (b : Board) (p : Z * Z) : Z :=
  _evaluate_position d (fst p) (snd p) b WHITE.

(** Descending in [key], from the head on. *)
Definition descending {A : Type} (key : A -> Z) (l : list A) : Prop :=
  StronglySorted (fun p q => key q <= key p) l.

(** The candidate cells in scan order: empty, with a stone within
    Chebyshev distance 2. *)
Definition candidates (b : Board) : list (Z * Z) :=
  filter (fun p => is_valid_move b (fst p) (snd p)
                   && _has_neighbor b (fst p) (snd p) 2)
         (all_cells b).

(** The reading of undo as an exact inverse of a successful placement. *)
Definition place_remove_restores (b : Board) (x y : Z) (color : Color) : Prop :=
  in_bounds b x y -> ~ occupied b x y ->
  remove_stone (fst (place_stone b x y color)) x y = b.

(** The reading of search as never below the static evaluation. *)
Definition search_not_below_static (d : Difficulty) (depth : nat) (b : Board)
  : Prop :=
  (1 <= depth)%nat ->
  num_leb (_evaluate_board d b)
          (fst (_alpha_beta d depth b NegInf PosInf true)) = true.

(** ** Boards used as examples *)

Definition one_black_board : Board := run_ops [Place 7 7 BLACK] Board_init.

Definition run_board : Board :=
  run_ops [Place 0 0 BLACK; Place 1 0 BLACK; Place 2 0 BLACK;
           Place 3 0 BLACK; Place 4 0 BLACK] Board_init.

Definition broken_board : Board :=
  run_ops [Place 0 0 BLACK; Place 1 0 BLACK; Place 3 0 BLACK;
           Place 4 0 BLACK; Place 5 0 BLACK] Board_init.

(** A white stone next to the corner. *)
Definition white_edge_board : Board := run_ops [Place 1 0 WHITE] Board_init.

(** A full board without five in a row: pairs of columns alternate in
    colour, shifted by two from one row to the next. *)
Definition full_board : Board :=
  run_ops
    (map (fun p => Place (fst p) (snd p)
                         (if (fst p + 2 * snd p) mod 4 <? 2 then BLACK else WHITE))
         (all_cells Board_init))
    Board_init.

(** ** Vocabulary of the further properties *)

(** The last move, when there is one, is the stone appended last. *)
Definition last_move_is_last (b : Board) : Prop :=
  match last_move b with
  | None => True
  | Some s => exists l, stones b = l ++ [s]
  end.

(** An operation that is not the removal at the coordinate. *)
Definition keeps_cell (x y : Z) (op : Op) : Prop :=
  match op with
  | Place _ _ _ => True
  | Remove x' y' => (x', y') <> (x, y)
  end.

(** [(nx, ny)] is another cell within Chebyshev distance [distance]. *)
Definition near (distance x y nx ny : Z) : Prop :=
  Z.abs (nx - x) <= distance /\ Z.abs (ny - y) <= distance /\
  (nx, ny) <> (x, y).

(** The two candidate loops of [_alpha_beta], over the recursive call. *)
Definition max_loop (rec : Board -> Number -> Number -> bool -> Number * Board)
           (beta : Number)
  : list (Z * Z) -> Board -> Number -> Number -> Number * Board :=
  fix loop (moves : list (Z * Z)) (board : Board)
           (alpha : Number) (max_eval : Number) {struct moves}
    : Number * Board :=
    match moves with
    | [] => (max_eval, board)
    | (x, y) :: rest =>
        let board := fst (place_stone board x y WHITE) in
        let '(eval, board) := rec board alpha beta false in
        let board := remove_stone board x y in
        let max_eval := py_max max_eval eval in
        let alpha := py_max alpha eval in
        if num_leb beta alpha then (max_eval, board)
        else loop rest board alpha max_eval
    end.

Definition min_loop (rec : Board -> Number -> Number -> bool -> Number * Board)
           (alpha : Number)
  : list (Z * Z) -> Board -> Number -> Number -> Number * Board :=
  fix loop (moves : list (Z * Z)) (board : Board)
           (beta : Number) (min_eval : Number) {struct moves}
    : Number * Board :=
    match moves with
    | [] => (min_eval, board)
    | (x, y) :: rest =>
        let board := fst (place_stone board x y BLACK) in
        let '(eval, board) := rec board alpha beta true in
        let board := remove_stone board x y in
        let min_eval := py_min min_eval eval in
        let beta := py_min beta eval in
        if num_leb beta alpha then (min_eval, board)
        else loop rest board beta min_eval
    end.

(** Plain minimax over the same candidates and the same static
    evaluation, on board values, with no window and no pruning: the
    reference the pruned search is compared with. *)
Fixpoint minimax (d : Difficulty) (depth : nat) (b : Board)
         (is_maximizing : bool) {struct depth} : Number :=
  match depth with
  | O => _evaluate_board d b
  | S depth' =>
      if is_game_over b then _evaluate_board d b
      else if is_maximizing then
        fold_left
          (fun acc p =>
             py_max acc (minimax d depth'
                           (fst (place_stone b (fst p) (snd p) WHITE)) false))
          (_get_valid_moves d b) NegInf
      else
        fold_left
          (fun acc p =>
             py_min acc (minimax d depth'
                           (fst (place_stone b (fst p) (snd p) BLACK)) true))
          (_get_valid_moves d b) PosInf
  end.

(** The board with its last move forgotten. *)
Definition forget_last_move (b : Board) : Board :=
  mkBoard (size b) (stones b) None.

(** The first element of greatest value, none when every value is
    -infinity: the selection made by the loop of [get_move]. *)
Fixpoint first_best {A : Type} (value : A -> Number) (l : list A)
         (best_score : Number) (best : option A) : option A :=
  match l with
  | [] => best
  | a :: r =>
      if num_ltb best_score (value a)
      then first_best value r (value a) (Some a)
      else first_best value r best_score best
  end.

(** A search procedure that hands the board back with its cells as they
    were, the last move kept or forgotten. *)
Definition keeps_cells
           (rec : Board -> Number -> Number -> bool -> Number * Board) : Prop :=
  forall bd alpha beta m,
    snd (rec bd alpha beta m) = bd
    \/ snd (rec bd alpha beta m) = forget_last_move bd.

Definition all_valid (b : Board) (moves : list (Z * Z)) : Prop :=
  forall x y, In (x, y) moves -> is_valid_move b x y = true.

(** What a fail-soft search result [r] tells about the true value [v]
    under the window (alpha, beta): at or below alpha it is an upper bound,
    at or above beta a lower bound, strictly inside it is exact. *)
Definition sound_window (v r alpha beta : Number) : Prop :=
  (num_leb r alpha = true -> num_leb v r = true) /\
  (num_ltb alpha r = true -> num_ltb r beta = true -> v = r) /\
  (num_leb beta r = true -> num_leb r v = true).

(** The running maximum [acc] of a maximizing loop against the true
    maximum [mt] of the candidates seen so far. *)
Definition max_inv (alpha0 acc mt : Number) : Prop :=
  (num_leb acc alpha0 = true -> num_leb mt acc = true) /\
  (num_ltb alpha0 acc = true -> mt = acc).

(** The same for the running minimum of a minimizing loop. *)
Definition min_inv (beta0 acc mt : Number) : Prop :=
  (num_leb beta0 acc = true -> num_leb acc mt = true) /\
  (num_ltb acc beta0 = true -> mt = acc).

(** Search values below a bound [L] embed in [Z], the infinities at
    [-L] and [L]. *)
Definition bound (a : Number) : Z :=
  match a with Int z => Z.abs z + 1 | _ => 1 end.

Definition enc (L : Z) (a : Number) : Z :=
  match a with NegInf => - L | Int z => z | PosInf => L end.

(** The value [get_move] compares for a candidate: the minimax value of
    the board after WHITE plays there, BLACK to move. *)
Definition root_value (d : Difficulty) (b : Board) (p : Z * Z) : Number :=
  minimax d (search_depth d - 1)
          (fst (place_stone b (fst p) (snd p) WHITE)) false.

(** ** Game: the event and frame logic

    The logical state of [Game] and what its handlers do to it.  The
    calls that only render (screen fills, lines, circles, text, flips)
    change no field and are left out; sounds played and events posted
    are recorded as effects.  A button's label is only drawn and is left
    out of [Button]. *)

Definition SCREEN_WIDTH : Z := 800.
Definition SCREEN_HEIGHT : Z := 600.
Definition CELL_SIZE : Z := 35.

Inductive GameState : Type := MENU | PLAYING | GAME_OVER | SETTINGS.
Inductive PlayerType : Type := HUMAN | AI.
Inductive GameMode : Type := PVP | PVE.

(** The keys of [SoundManager.sounds]. *)
Inductive Sound : Type := sound_place | sound_win | sound_click.

Inductive Effect : Type :=
| Play (s : Sound)
| PostQuit.

(** The events the handlers tell apart: [event.type] with [event.pos]. *)
Inductive Event : Type :=
| MOUSEMOTION (pos : Z * Z)
| MOUSEBUTTONDOWN (pos : Z * Z)
| QUIT
| OtherEvent.

Record Rect : Type := mkRect { rect_x : Z; rect_y : Z; rect_w : Z; rect_h : Z }.

Record Button : Type := mkButton { rect : Rect; is_hovered : bool }.

Record Game : Type := mkGame {
  state : GameState;
  board : Board;
  game_mode : GameMode;
  current_player : PlayerType;
  ai : Difficulty;
  menu_buttons : list Button;
  ai_move_made : bool;
  ai_move_position : option (Z * Z);
  user_move_made : bool;
  user_move_position : option (Z * Z)
}.

(** [Game.__init__] *)
Definition Game_init : Game :=
  mkGame MENU Board_init PVE HUMAN MEDIUM
         [mkButton (mkRect 300 200 200 50) false;
          mkButton (mkRect 300 270 200 50) false;
          mkButton (mkRect 300 340 200 50) false;
          mkButton (mkRect 300 410 200 50) false]
         false None false None.

Definition set_state (s : GameState) (g : Game) : Game :=
  mkGame s (board g) (game_mode g) (current_player g) (ai g) (menu_buttons g)
         (ai_move_made g) (ai_move_position g) (user_move_made g)
         (user_move_position g).

Definition set_board (b : Board) (g : Game) : Game :=
  mkGame (state g) b (game_mode g) (current_player g) (ai g) (menu_buttons g)
         (ai_move_made g) (ai_move_position g) (user_move_made g)
         (user_move_position g).

Definition set_game_mode (m : GameMode) (g : Game) : Game :=
  mkGame (state g) (board g) m (current_player g) (ai g) (menu_buttons g)
         (ai_move_made g) (ai_move_position g) (user_move_made g)
         (user_move_position g).

Definition set_current_player (p : PlayerType) (g : Game) : Game :=
  mkGame (state g) (board g) (game_mode g) p (ai g) (menu_buttons g)
         (ai_move_made g) (ai_move_position g) (user_move_made g)
         (user_move_position g).

Definition set_menu_buttons (l : list Button) (g : Game) : Game :=
  mkGame (state g) (board g) (game_mode g) (current_player g) (ai g) l
         (ai_move_made g) (ai_move_position g) (user_move_made g)
         (user_move_position g).

Definition set_ai_move_made (f : bool) (g : Game) : Game :=
  mkGame (state g) (board g) (game_mode g) (current_player g) (ai g)
         (menu_buttons g) f (ai_move_position g) (user_move_made g)
         (user_move_position g).

Definition set_ai_move_position (p : option (Z * Z)) (g : Game) : Game :=
  mkGame (state g) (board g) (game_mode g) (current_player g) (ai g)
         (menu_buttons g) (ai_move_made g) p (user_move_made g)
         (user_move_position g).

Definition set_user_move_made (f : bool) (g : Game) : Game :=
  mkGame (state g) (board g) (game_mode g) (current_player g) (ai g)
         (menu_buttons g) (ai_move_made g) (ai_move_position g) f
         (user_move_position g).

Definition set_user_move_position (p : option (Z * Z)) (g : Game) : Game :=
  mkGame (state g) (board g) (game_mode g) (current_player g) (ai g)
         (menu_buttons g) (ai_move_made g) (ai_move_position g)
         (user_move_made g) p.

(** [Game.get_board_position] *)
Definition get_board_position (pos : Z * Z) : Z * Z :=
  let board_x := (SCREEN_WIDTH - BOARD_SIZE * CELL_SIZE) / 2 in
  let board_y := (SCREEN_HEIGHT - BOARD_SIZE * CELL_SIZE) / 2 in
  let x := (fst pos - board_x) / CELL_SIZE in
  let y := (snd pos - board_y) / CELL_SIZE in
  (x, y).

(** The centre of the stone that [draw_game] draws for the cell, in
    screen coordinates: the centre on the board surface, shifted by the
    offset at which the surface is blitted. *)
Definition stone_center (x y : Z) : Z * Z :=
  let board_x := (SCREEN_WIDTH - BOARD_SIZE * CELL_SIZE) / 2 in
  let board_y := (SCREEN_HEIGHT - BOARD_SIZE * CELL_SIZE) / 2 in
  (board_x + (x * CELL_SIZE + CELL_SIZE / 2),
   board_y + (y * CELL_SIZE + CELL_SIZE / 2)).

(** [Game.draw]: of all it does only [draw_game] changes a field, the
    pending AI position, reset once drawn. *)
Definition draw (g : Game) : Game :=
  match state g with
  | MENU => g
  | PLAYING | GAME_OVER =>
      match ai_move_position g with
      | Some _ => set_ai_move_position None g
      | None => g
      end
  | SETTINGS => g
  end.

Section GameHandlers.

(** [pygame.Rect.collidepoint], a library function, is a parameter. *)
Variable collidepoint : Rect -> Z * Z -> bool.

(** [Button.handle_event]: the button after the event and the result. *)
Definition Button_handle_event (self : Button) (event : Event) : Button * bool :=
  match event with
  | MOUSEMOTION pos => (mkButton (rect self) (collidepoint (rect self) pos), false)
  | MOUSEBUTTONDOWN _ => (self, is_hovered self)
  | _ => (self, false)
  end.

(** The loop of [Game.handle_menu_event] from index [i] on; [done] are
    the buttons already visited. *)
Fixpoint menu_loop (event : Event) (i : nat) (buttons done : list Button)
         (g : Game) (log : list Effect) : Game * list Effect :=
  match buttons with
  | [] => (set_menu_buttons done g, log)
  | button :: rest =>
      let '(button, clicked) := Button_handle_event button event in
      if clicked then
        let '(g, log) :=
          match i with
          | 0%nat => (set_state PLAYING (set_game_mode PVE g), log)
          | 1%nat => (set_state PLAYING (set_game_mode PVP g), log)
          | 2%nat => (set_state SETTINGS g, log)
          | 3%nat => (g, log ++ [PostQuit])
          | _ => (g, log)
          end in
        menu_loop event (S i) rest (done ++ [button]) g (log ++ [Play sound_click])
      else menu_loop event (S i) rest (done ++ [button]) g log
  end.

(** [Game.handle_menu_event] *)
Definition handle_menu_event (g : Game) (event : Event) : Game * list Effect :=
  menu_loop event 0 (menu_buttons g) [] g [].

(** [Game.handle_game_event] *)
Definition handle_game_event (g : Game) (event : Event) : Game * list Effect :=
  match event, current_player g with
  | MOUSEBUTTONDOWN pos, HUMAN =>
      let '(x, y) := get_board_position pos in
      let '(b, placed) := place_stone (board g) x y BLACK in
      if placed then
        let g := set_board b g in
        let log := [Play sound_place] in
        let g := set_user_move_made true g in
        let g := set_user_move_position (Some (x, y)) g in
        let '(g, log) :=
          if (match last_move b with Some _ => true | None => false end)
               && check_win b (last_move b)
          then (set_state GAME_OVER g, log ++ [Play sound_win])
          else match game_mode g with
               | PVE => (set_ai_move_made false (set_current_player AI g), log)
               | PVP => (g, log)
               end in
        (draw g, log)
      else (g, [])
  | _, _ => (g, [])
  end.

(** [Game.handle_event] *)
Definition handle_event (g : Game) (event : Event) : Game * list Effect :=
  match state g with
  | MENU => handle_menu_event g event
  | PLAYING => handle_game_event g event
  | SETTINGS => handle_menu_event g event
  | GAME_OVER => (g, [])
  end.

(** [Game.update] *)
Definition update (g : Game) : Game * list Effect :=
  match state g with
  | PLAYING =>
      let g := if user_move_made g then set_user_move_made false g else g in
      match current_player g, ai_move_made g with
      | AI, false =>
          let '((x, y), b) := get_move (ai g) (board g) in
          let '(b, placed) := place_stone b x y WHITE in
          let g := set_board b g in
          let '(g, log) :=
            if placed then
              let log := [Play sound_place] in
              let g := set_ai_move_made true g in
              let g := set_ai_move_position (Some (x, y)) g in
              if check_win b (last_move b)
              then (set_state GAME_OVER g, log ++ [Play sound_win])
              else (set_current_player HUMAN g, log)
            else (g, []) in
          (draw g, log)
      | _, _ => (g, [])
      end
  | _ => (g, [])
  end.

(** The [for event in pygame.event.get()] loop of [Game.run]. *)
Fixpoint process_events (events : list Event) (g : Game) (running : bool)
         (log : list Effect) : Game * bool * list Effect :=
  match events with
  | [] => (g, running, log)
  | QUIT :: rest => process_events rest g false log
  | event :: rest =>
      let '(g, l) := handle_event g event in
      process_events rest g running (log ++ l)
  end.

(** One turn of the [while running] loop of [Game.run], given the events
    the queue delivers. *)
Definition frame (g : Game) (events : list Event) : Game * bool * list Effect :=
  let '(g, running, log) := process_events events g true [] in
  let '(g, l) := update g in
  (draw g, running, log ++ l).

(** [Game.run] over the event batches of successive turns, up to the turn
    that sees QUIT. *)
Fixpoint run (frames : list (list Event)) (g : Game) : Game * list Effect :=
  match frames with
  | [] => (g, [])
  | events :: rest =>
      let '(g, running, log) := frame g events in
      if running then
        let '(g, l) := run rest g in (g, log ++ l)
      else (g, log)
  end.

End GameHandlers.

(** A containment test as an instance of [collidepoint]. *)
Definition rect_contains (r : Rect) (pos : Z * Z) : bool :=
  (rect_x r <=? fst pos) && (fst pos <? rect_x r + rect_w r)
  && (rect_y r <=? snd pos) && (snd pos <? rect_y r + rect_h r).

(** ** Vocabulary of the game properties *)

Definition count_color (c : Color) (b : Board) : Z :=
  Z.of_nat (length (filter (fun s => color_eqb (stone_color s) c) (stones b))).

Definition all_black (b : Board) : Prop :=
  Forall (fun s => stone_color s = BLACK) (stones b).

(** In the menu and in the settings screen nothing has been played. *)
Definition menu_inv (g : Game) : Prop :=
  state g = MENU \/ state g = SETTINGS ->
  stones (board g) = [] /\ current_player g = HUMAN.

(** Player against player: the turn never passes to the machine and every
    stone is black. *)
Definition pvp_inv (g : Game) : Prop :=
  game_mode g = PVP -> current_player g = HUMAN /\ all_black (board g).

(** Player against machine: the stone counts follow the turn. *)
Definition pve_inv (g : Game) : Prop :=
  game_mode g = PVE ->
  match state g with
  | PLAYING =>
      match current_player g with
      | HUMAN => count_color BLACK (board g) = count_color WHITE (board g)
      | AI => count_color BLACK (board g) = count_color WHITE (board g) + 1
              /\ ai_move_made g = false
      end
  | GAME_OVER =>
      count_color WHITE (board g) <= count_color BLACK (board g)
      <= count_color WHITE (board g) + 1
  | _ => True
  end.

Definition game_inv (g : Game) : Prop := menu_inv g /\ pvp_inv g /\ pve_inv g.

(** The machine is to move in [g] on the cells of [g0]. *)
Definition frozen (g0 g : Game) : Prop :=
  state g = PLAYING /\ current_player g = AI /\ ai_move_made g = false /\
  ai g = ai g0 /\
  forget_last_move (board g) = forget_last_move (board g0).

(** After WHITE plays the cell, BLACK has a candidate that wins at once. *)
Definition black_wins_next (d : Difficulty) (b : Board) (q : Z * Z) : bool :=
  let b1 := fst (place_stone b (fst q) (snd q) WHITE) in
  negb (is_game_over b1)
  && existsb (fun p =>
                let b2 := fst (place_stone b1 (fst p) (snd p) BLACK) in
                check_win b2 (last_move b2))
             (_get_valid_moves d b1).

(** Black has an open four through the centre; three white stones lie in
    a corner. *)
Definition open_four_board : Board :=
  run_ops [Place 7 7 BLACK; Place 0 0 WHITE; Place 6 7 BLACK; Place 0 1 WHITE;
           Place 8 7 BLACK; Place 1 0 WHITE; Place 5 7 BLACK] Board_init.

Definition open_four_game : Game :=
  mkGame PLAYING open_four_board PVE AI MEDIUM (menu_buttons Game_init)
         false None true (Some (5, 7)).

(** ** The single-ply player of game.py

    game.py has the same [Stone] and [Board] and its own [AIPlayer]: other
    weights, an evaluator without the block counter, and a [get_move]
    that ranks the empty cells without search. *)

Module Basic.

(** [self.weights[difficulty]] of game.py *)
Definition weights (d : Difficulty) : Weights :=
  match d with
  | EASY => mkWeights 10 50 1000 100000
  | MEDIUM => mkWeights 20 100 2000 20000
  | HARD => mkWeights 30 200 4000 40000
  end.

(** One directional walk: the count and the open ends. *)
Fixpoint eval_arm (b : Board) (color : Color) (cell : Z -> Z * Z)
         (steps : list Z) (count open_ends : Z) : Z * Z :=
  match steps with
  | [] => (count, open_ends)
  | i :: rest =>
      let '(nx, ny) := cell i in
      match get_stone_at b nx ny with
      | Some stone =>
          if color_eqb (stone_color stone) color
          then eval_arm b color cell rest (count + 1) open_ends
          else (count, open_ends)
      | None => (count, open_ends + 1)
      end
  end.

(** The pattern table of game.py: any open end will do. *)
Definition pattern_score (w : Weights) (count open_ends : Z) : Z :=
  if count >=? 5 then w5 w
  else if (count =? 4) && (open_ends >? 0) then w4 w
  else if (count =? 3) && (open_ends >? 0) then w3 w
  else if (count =? 2) && (open_ends >? 0) then w2 w
  else 0.

(** [AIPlayer._evaluate_position] of game.py *)
Definition _evaluate_position (d : Difficulty) (x y : Z) (b : Board)
           (color : Color) : Z :=
  fold_left
    (fun total_score dir =>
       let '(dx, dy) := dir in
       let '(count, open_ends) :=
         eval_arm b color (fun i => (x + i * dx, y + i * dy)) range_1_5 1 0 in
       let '(count, open_ends) :=
         eval_arm b color (fun i => (x - i * dx, y - i * dy)) range_1_5
                  count open_ends in
       total_score + pattern_score (weights d) count open_ends)
    directions 0.

(** The score [get_move] ranks a cell by. *)
Definition cell_score (d : Difficulty) (b : Board) (p : Z * Z) : Z :=
  _evaluate_position d (fst p) (snd p) b WHITE
  + _evaluate_position d (fst p) (snd p) b BLACK.

(** [AIPlayer.get_move] of game.py *)
Definition get_move (d : Difficulty) (b : Board) : Z * Z :=
  let '(best_score, best_move) :=
    fold_left
      (fun st x =>
         fold_left
           (fun st y =>
              if is_valid_move b x y then
                let score :=
                  _evaluate_position d x y b WHITE
                  + _evaluate_position d x y b BLACK in
                if num_ltb (fst st) (Int score) then (Int score, Some (x, y))
                else st
              else st)
           (range 0 (size b)) st)
      (range 0 (size b)) (NegInf, None) in
  match best_move with
  | Some move => move
  | None => (size b / 2, size b / 2)
  end.

End Basic.

(** ** The win test of main.py, on a list of coordinates *)

Module Main.

(** [(m, n) in list] *)
Definition mem (p : Z * Z) (l : list (Z * Z)) : bool :=
  existsb (fun q => (fst q =? fst p) && (snd q =? snd p)) l.

(** [game_win]: the two loops return at the first cell that starts a
    line of five. *)
Definition game_win (l : list (Z * Z)) : bool :=
  existsb
    (fun m =>
       existsb
         (fun n =>
            if (n <? BOARD_SIZE - 4)
                 && mem (m, n) l && mem (m, n + 1) l && mem (m, n + 2) l
                 && mem (m, n + 3) l && mem (m, n + 4) l
            then true
            else if (m <? BOARD_SIZE - 4)
                      && mem (m, n) l && mem (m + 1, n) l && mem (m + 2, n) l
                      && mem (m + 3, n) l && mem (m + 4, n) l
            then true
            else if (m <? BOARD_SIZE - 4) && (n <? BOARD_SIZE - 4)
                      && mem (m, n) l && mem (m + 1, n + 1) l
                      && mem (m + 2, n + 2) l && mem (m + 3, n + 3) l
                      && mem (m + 4, n + 4) l
            then true
            else if (m <? BOARD_SIZE - 4) && (n >? 3)
                      && mem (m, n) l && mem (m + 1, n - 1) l
                      && mem (m + 2, n - 2) l && mem (m + 3, n - 3) l
                      && mem (m + 4, n - 4) l
            then true
            else false)
         (range 0 BOARD_SIZE))
    (range 0 BOARD_SIZE).

(** Five cells in a row from [(m, n)] along [dir], all on the 15x15 grid
    and all in the list. *)
Definition line_of_five (l : list (Z * Z)) (m n : Z) (dir : Z * Z) : Prop :=
  forall i, 0 <= i <= 4 ->
    In (m + i * fst dir, n + i * snd dir) l /\
    0 <= m + i * fst dir < BOARD_SIZE /\ 0 <= n + i * snd dir < BOARD_SIZE.

End Main.

(** ** Board operations *)

Section BoardFacts.

Variable b : Board.

Lemma at_coord_true (x y : Z) (s : Stone) :
  at_coord x y s = true <-> stone_x s = x /\ stone_y s = y.
Proof. unfold at_coord. rewrite andb_true_iff, !Z.eqb_eq. tauto. Qed.

Lemma existsb_at_coord (x y : Z) :
  existsb (at_coord x y) (stones b) = true <-> occupied b x y.
Proof.
  rewrite existsb_exists. unfold occupied.
  split; intros [s [Hin H]]; exists s; split; trivial;
    now apply at_coord_true.
Qed.

Lemma is_valid_move_spec (x y : Z) :
  is_valid_move b x y = true <-> in_bounds b x y /\ ~ occupied b x y.
Proof.
  unfold is_valid_move, in_bounds.
  destruct (x <? 0) eqn:E1; [ apply Z.ltb_lt in E1 | apply Z.ltb_ge in E1 ];
    simpl; [ split; [ discriminate | lia ] | ].
  destruct (x >=? size b) eqn:E2; rewrite Z.geb_leb in E2;
    [ apply Z.leb_le in E2 | apply Z.leb_gt in E2 ];
    simpl; [ split; [ discriminate | lia ] | ].
  destruct (y <? 0) eqn:E3; [ apply Z.ltb_lt in E3 | apply Z.ltb_ge in E3 ];
    simpl; [ split; [ discriminate | lia ] | ].
  destruct (y >=? size b) eqn:E4; rewrite Z.geb_leb in E4;
    [ apply Z.leb_le in E4 | apply Z.leb_gt in E4 ];
    simpl; [ split; [ discriminate | lia ] | ].
  rewrite negb_true_iff, <- not_true_iff_false, existsb_at_coord.
  split; [ intros H; repeat split; trivial; lia | tauto ].
Qed.

Lemma get_stone_at_None (x y : Z) :
  get_stone_at b x y = None <-> ~ occupied b x y.
Proof.
  unfold get_stone_at. split.
  - intros H [s [Hin Hs]].
    apply (find_none _ _ H) in Hin.
    apply at_coord_true in Hs. congruence.
  - intros H. destruct (find (at_coord x y) (stones b)) as [s|] eqn:E; trivial.
    apply find_some in E. destruct E as [Hin Hs].
    exfalso. apply H. exists s. split; trivial. now apply at_coord_true.
Qed.

Lemma get_stone_at_Some (x y : Z) (s : Stone) :
  get_stone_at b x y = Some s ->
  In s (stones b) /\ stone_x s = x /\ stone_y s = y.
Proof.
  unfold get_stone_at. intros H. apply find_some in H.
  destruct H as [Hin Hs]. split; trivial. now apply at_coord_true.
Qed.

End BoardFacts.

Lemma filter_all {A : Type} (f : A -> bool) (l : list A) :
  (forall a, In a l -> f a = true) -> filter f l = l.
Proof.
  induction l as [|a l IH]; intros H; simpl; trivial.
  rewrite (H a (or_introl eq_refl)). f_equal.
  apply IH. intros a' Ha'. apply H. now right.
Qed.

Lemma NoDup_map_filter {A B : Type} (f : A -> B) (p : A -> bool) (l : list A) :
  NoDup (map f l) -> NoDup (map f (filter p l)).
Proof.
  induction l as [|a l IH]; simpl; intros H; trivial.
  inversion H as [|? ? Hnotin Hnd]; subst.
  destruct (p a); simpl; auto.
  constructor; auto.
  intros Hin. apply Hnotin.
  apply in_map_iff in Hin. destruct Hin as [a' [Ha' Hin]].
  apply filter_In in Hin. apply in_map_iff. exists a'. tauto.
Qed.

Lemma place_stone_valid (b : Board) (x y : Z) (color : Color) :
  is_valid_move b x y = true ->
  place_stone b x y color =
    (mkBoard (size b) (stones b ++ [mkStone x y color])
             (Some (mkStone x y color)), true).
Proof. intros H. unfold place_stone. now rewrite H. Qed.

Lemma place_stone_invalid (b : Board) (x y : Z) (color : Color) :
  is_valid_move b x y = false -> place_stone b x y color = (b, false).
Proof. intros H. unfold place_stone. now rewrite H. Qed.

Lemma remove_stone_size (b : Board) (x y : Z) : size (remove_stone b x y) = size b.
Proof.
  unfold remove_stone. destruct (last_move b) as [lm|]; trivial.
  now destruct ((stone_x lm =? x) && (stone_y lm =? y)).
Qed.

Lemma remove_stone_stones (b : Board) (x y : Z) :
  stones (remove_stone b x y)
  = filter (fun stone => negb (at_coord x y stone)) (stones b).
Proof.
  unfold remove_stone. destruct (last_move b) as [lm|]; trivial.
  now destruct ((stone_x lm =? x) && (stone_y lm =? y)).
Qed.

Lemma place_stone_size (b : Board) (x y : Z) (color : Color) :
  size (fst (place_stone b x y color)) = size b.
Proof. unfold place_stone. now destruct (is_valid_move b x y). Qed.

(** Removing the stone just placed on a free cell gives back the stone
    list and leaves no last move. *)
Lemma remove_after_place (b : Board) (x y : Z) (color : Color) :
  is_valid_move b x y = true ->
  remove_stone (fst (place_stone b x y color)) x y
  = mkBoard (size b) (stones b) None.
Proof.
  intros Hv. rewrite (place_stone_valid _ _ _ color Hv). simpl.
  unfold remove_stone. simpl. rewrite !Z.eqb_refl. simpl. f_equal.
  rewrite filter_app. simpl. unfold at_coord at 2. simpl.
  rewrite !Z.eqb_refl. simpl. rewrite app_nil_r.
  apply filter_all. intros s Hin.
  apply negb_true_iff, not_true_iff_false. intros Hs.
  apply is_valid_move_spec in Hv. destruct Hv as [_ Hfree].
  apply Hfree. exists s. split; trivial. now apply at_coord_true.
Qed.

(** C4.  [place_stone] returns true exactly on an in-bounds, unoccupied
    coordinate; it then appends the one new stone, which becomes the last
    move; otherwise it returns false and the board is unchanged.  The
    function is total: no input makes it fail. *)
Theorem place_stone_spec (b : Board) (x y : Z) (color : Color) :
  (snd (place_stone b x y color) = true
   <-> in_bounds b x y /\ ~ occupied b x y) /\
  (snd (place_stone b x y color) = true ->
   stones (fst (place_stone b x y color)) = stones b ++ [mkStone x y color] /\
   last_move (fst (place_stone b x y color)) = Some (mkStone x y color) /\
   size (fst (place_stone b x y color)) = size b) /\
  (snd (place_stone b x y color) <> true ->
   place_stone b x y color = (b, false)).
Proof.
  rewrite <- is_valid_move_spec.
  unfold place_stone.
  destruct (is_valid_move b x y); simpl; repeat split; auto;
    try discriminate; try tauto.
Qed.

Lemma place_stone_spec_witness :
  stones (fst (place_stone Board_init 7 7 BLACK)) = [mkStone 7 7 BLACK] /\
  place_stone one_black_board 7 7 WHITE = (one_black_board, false).
Proof.
  split.
  - apply (proj1 (proj2 (place_stone_spec Board_init 7 7 BLACK))).
    reflexivity.
  - apply (proj2 (proj2 (place_stone_spec one_black_board 7 7 WHITE))).
    vm_compute. discriminate.
Defined.

(** C1 as stated fails: with a last move on the board, placing on a free
    cell and removing it again leaves the board without a last move. *)
Lemma place_remove_forgets_last_move :
  ~ place_remove_restores one_black_board 1 1 WHITE.
Proof.
  intros H.
  assert (Hv : is_valid_move one_black_board 1 1 = true) by reflexivity.
  apply is_valid_move_spec in Hv. destruct Hv as [Hb Hf].
  specialize (H Hb Hf). vm_compute in H. discriminate H.
Qed.

(** C1, amended.  On an in-bounds, unoccupied coordinate, [place_stone]
    followed by [remove_stone] gives back the stone list and the size
    exactly, and leaves the last move absent; the board is the one before
    the placement exactly when that board had no last move. *)
Theorem place_remove_roundtrip (b : Board) (x y : Z) (color : Color) :
  in_bounds b x y -> ~ occupied b x y ->
  let b' := remove_stone (fst (place_stone b x y color)) x y in
  stones b' = stones b /\ size b' = size b /\ last_move b' = None /\
  (b' = b <-> last_move b = None).
Proof.
  intros Hb Hf.
  assert (Hv : is_valid_move b x y = true) by (apply is_valid_move_spec; tauto).
  cbv zeta. rewrite (remove_after_place b x y color Hv). simpl.
  repeat split.
  - intros <-. reflexivity.
  - intros Hl. destruct b as [n l lm]. simpl in *. now subst.
Qed.

Lemma place_remove_roundtrip_witness :
  let b' := remove_stone (fst (place_stone one_black_board 1 1 WHITE)) 1 1 in
  stones b' = stones one_black_board /\ size b' = size one_black_board /\
  last_move b' = None /\
  (b' = one_black_board <-> last_move one_black_board = None).
Proof.
  apply (place_remove_roundtrip one_black_board 1 1 WHITE).
  - vm_compute. split; split; discriminate || reflexivity.
  - apply (proj1 (is_valid_move_spec one_black_board 1 1)). reflexivity.
Defined.

(** ** Reachable boards *)

Lemma place_stone_inv (b : Board) (x y : Z) (color : Color) :
  board_inv b -> board_inv (fst (place_stone b x y color)).
Proof.
  intros [Hu Hb]. unfold place_stone.
  destruct (is_valid_move b x y) eqn:Hv; simpl; [ | now split ].
  apply is_valid_move_spec in Hv. destruct Hv as [Hin Hfree].
  split.
  - unfold unique_coords in *. simpl. rewrite map_app. simpl.
    apply (Permutation_NoDup (Permutation_cons_append _ _)).
    constructor; trivial.
    intros Hc. apply in_map_iff in Hc. destruct Hc as [s [Hs Hins]].
    apply Hfree. exists s. unfold coord in Hs. inversion Hs. auto.
  - unfold all_in_bounds in *. simpl. apply Forall_app. split; trivial.
    constructor; [ exact Hin | constructor ].
Qed.

Lemma remove_stone_inv (b : Board) (x y : Z) :
  board_inv b -> board_inv (remove_stone b x y).
Proof.
  intros [Hu Hb]. split.
  - unfold unique_coords. rewrite remove_stone_stones.
    now apply NoDup_map_filter.
  - unfold all_in_bounds, in_bounds.
    rewrite remove_stone_stones, remove_stone_size.
    apply Forall_forall. intros s Hs. apply filter_In in Hs.
    unfold all_in_bounds in Hb. rewrite Forall_forall in Hb.
    now apply Hb.
Qed.

Lemma run_ops_inv (ops : list Op) :
  forall b, board_inv b -> board_inv (run_ops ops b).
Proof.
  induction ops as [|op ops IH]; intros b Hb; simpl; trivial.
  apply IH. destruct op; simpl.
  - now apply place_stone_inv.
  - now apply remove_stone_inv.
Qed.

(** C9.  Every board reached from an empty board by [place_stone] and
    [remove_stone] calls has at most one stone per coordinate and all its
    stones on the grid; each of the two operations preserves that. *)
Theorem reachable_board_inv :
  (forall (n : Z) (ops : list Op), board_inv (run_ops ops (mkBoard n [] None))) /\
  (forall b x y color, board_inv b -> board_inv (fst (place_stone b x y color))) /\
  (forall b x y, board_inv b -> board_inv (remove_stone b x y)).
Proof.
  split; [ | split ].
  - intros n ops. apply run_ops_inv. split.
    + constructor.
    + constructor.
  - exact place_stone_inv.
  - exact remove_stone_inv.
Qed.

Lemma reachable_board_inv_witness :
  board_inv run_board /\
  board_inv (fst (place_stone run_board 5 5 WHITE)) /\
  board_inv (remove_stone run_board 2 0).
Proof.
  assert (H : board_inv run_board)
    by exact (proj1 reachable_board_inv BOARD_SIZE _).
  split; [ exact H | split ].
  - exact (proj1 (proj2 reachable_board_inv) run_board 5 5 WHITE H).
  - exact (proj2 (proj2 reachable_board_inv) run_board 2 0 H).
Defined.

(** C10.  [check_win] on an absent stone is false, and a board without a
    last move is over exactly when its stone count is the square of its
    size. *)
Theorem check_win_absent (b : Board) :
  check_win b None = false /\
  (last_move b = None ->
   (is_game_over b = true <-> Z.of_nat (length (stones b)) = size b * size b)).
Proof.
  split; [ reflexivity | ].
  intros Hl. unfold is_game_over. rewrite Hl. simpl. apply Z.eqb_eq.
Qed.

Lemma check_win_absent_witness :
  check_win Board_init None = false /\
  (is_game_over Board_init = true
   <-> Z.of_nat (length (stones Board_init)) = size Board_init * size Board_init).
Proof.
  split.
  - exact (proj1 (check_win_absent Board_init)).
  - apply (proj2 (check_win_absent Board_init)). reflexivity.
Defined.

(** ** Win detection *)

Lemma color_eqb_eq (c1 c2 : Color) : color_eqb c1 c2 = true <-> c1 = c2.
Proof.
  destruct c1 as [[r1 g1] b1], c2 as [[r2 g2] b2]. unfold color_eqb.
  rewrite !andb_true_iff, !Z.eqb_eq.
  split; [ intros [[-> ->] ->]; reflexivity | intros H; inversion H; auto ].
Qed.

Lemma unique_coords_inj (b : Board) (s s' : Stone) :
  unique_coords b -> In s (stones b) -> In s' (stones b) ->
  coord s = coord s' -> s = s'.
Proof.
  unfold unique_coords. induction (stones b) as [|a l IH]; simpl; [ tauto | ].
  intros Hnd Hs Hs' Hc. inversion Hnd as [|? ? Hnotin Hnd']; subst.
  destruct Hs as [-> | Hs], Hs' as [-> | Hs']; auto.
  - exfalso. apply Hnotin. rewrite Hc. now apply in_map.
  - exfalso. apply Hnotin. rewrite <- Hc. now apply in_map.
Qed.

Lemma matches_has_color (b : Board) (color : Color) (x y : Z) :
  unique_coords b ->
  (matches b color (x, y) = true <-> has_color b x y color).
Proof.
  intros Hu. unfold matches, has_color. simpl. split.
  - destruct (get_stone_at b x y) as [s|] eqn:E; [ | discriminate ].
    intros Hc. apply get_stone_at_Some in E. apply color_eqb_eq in Hc.
    exists s. tauto.
  - intros [s [Hin [Hx [Hy Hc]]]].
    destruct (get_stone_at b x y) as [s'|] eqn:E.
    + apply get_stone_at_Some in E. destruct E as [Hin' [Hx' Hy']].
      assert (s' = s) as ->
        by (apply (unique_coords_inj b); trivial; unfold coord; congruence).
      now apply color_eqb_eq.
    + apply get_stone_at_None in E. exfalso. apply E. exists s. tauto.
Qed.

Lemma win_arm_cons (b : Board) (color : Color) (cell : Z -> Z * Z)
      (i : Z) (rest : list Z) (c : Z) :
  win_arm b color cell (i :: rest) c
  = if matches b color (cell i) then win_arm b color cell rest (c + 1) else c.
Proof.
  simpl. unfold matches. destruct (cell i) as [x y]. simpl.
  destruct (get_stone_at b x y) as [s|]; trivial.
  now destruct (color_eqb (stone_color s) color).
Qed.

(** A walk of [check_win] adds the length of the matching prefix of its
    four cells. *)
Lemma win_arm_range (b : Board) (color : Color) (cell : Z -> Z * Z) (c : Z) :
  exists p, 0 <= p <= 4 /\
    win_arm b color cell range_1_5 c = c + p /\
    forall i, 0 <= i <= 4 ->
      (i <= p <-> forall j, 1 <= j <= i -> matches b color (cell j) = true).
Proof.
  unfold range_1_5. rewrite !win_arm_cons.
  assert (Hcase : forall i j : Z, 1 <= j <= i -> i <= 4 ->
                    j = 1 \/ j = 2 \/ j = 3 \/ j = 4) by (intros; lia).
  destruct (matches b color (cell 1)) eqn:E1;
    [ destruct (matches b color (cell 2)) eqn:E2;
      [ destruct (matches b color (cell 3)) eqn:E3;
        [ destruct (matches b color (cell 4)) eqn:E4 | ] | ] | ].
  - exists 4. split; [ lia | ]. split; [ simpl; lia | ].
    intros i Hi. split; [ | lia ].
    intros _ j Hj.
    destruct (Hcase i j Hj (proj2 Hi)) as [-> | [-> | [-> | ->]]]; assumption.
  - exists 3. split; [ lia | ]. split; [ simpl; lia | ].
    intros i Hi. split.
    + intros Hle j Hj.
      assert (j = 1 \/ j = 2 \/ j = 3) as [-> | [-> | ->]] by lia; assumption.
    + intros H. destruct (Z_le_gt_dec i 3); trivial.
      specialize (H 4 ltac:(lia)). congruence.
  - exists 2. split; [ lia | ]. split; [ simpl; lia | ].
    intros i Hi. split.
    + intros Hle j Hj.
      assert (j = 1 \/ j = 2) as [-> | ->] by lia; assumption.
    + intros H. destruct (Z_le_gt_dec i 2); trivial.
      specialize (H 3 ltac:(lia)). congruence.
  - exists 1. split; [ lia | ]. split; [ simpl; lia | ].
    intros i Hi. split.
    + intros Hle j Hj. assert (j = 1) as -> by lia. assumption.
    + intros H. destruct (Z_le_gt_dec i 1); trivial.
      specialize (H 2 ltac:(lia)). congruence.
  - exists 0. split; [ lia | ]. split; [ simpl; lia | ].
    intros i Hi. split.
    + intros Hle j Hj. lia.
    + intros H. destruct (Z_le_gt_dec i 0); trivial.
      specialize (H 1 ltac:(lia)). congruence.
Qed.

(** The count of one axis reaches five exactly when five cells in a row
    through the stone carry its colour. *)
Lemma win_count_five (b : Board) (s : Stone) (d : Z * Z) :
  unique_coords b -> In s (stones b) ->
  ((win_count b s d >=? 5) = true <-> five_through b s d).
Proof.
  intros Hu Hin. destruct d as [dx dy]. unfold win_count.
  set (pos := fun i : Z => (stone_x s + dx * i, stone_y s + dy * i)).
  set (neg := fun i : Z => (stone_x s - dx * i, stone_y s - dy * i)).
  destruct (win_arm_range b (stone_color s) pos 1) as [p [Hp [-> Hpm]]].
  destruct (win_arm_range b (stone_color s) neg (1 + p)) as [q [Hq [-> Hqm]]].
  rewrite Z.geb_leb, Z.leb_le. unfold five_through. cbn [fst snd]. split.
  - intros Hge. exists q. split; [ lia | ]. intros j Hj.
    destruct (Z.lt_trichotomy j q) as [Hlt | [-> | Hgt]].
    + assert (Hm : matches b (stone_color s) (neg (q - j)) = true)
        by (apply (proj1 (Hqm q ltac:(lia)) ltac:(lia)); lia).
      apply (matches_has_color b _ _ _ Hu) in Hm.
      replace (stone_x s + (j - q) * dx) with (stone_x s - dx * (q - j)) by ring.
      replace (stone_y s + (j - q) * dy) with (stone_y s - dy * (q - j)) by ring.
      exact Hm.
    + replace (stone_x s + (q - q) * dx) with (stone_x s) by ring.
      replace (stone_y s + (q - q) * dy) with (stone_y s) by ring.
      exists s. tauto.
    + assert (Hm : matches b (stone_color s) (pos (j - q)) = true)
        by (apply (proj1 (Hpm (4 - q) ltac:(lia)) ltac:(lia)); lia).
      apply (matches_has_color b _ _ _ Hu) in Hm.
      replace (stone_x s + (j - q) * dx) with (stone_x s + dx * (j - q)) by ring.
      replace (stone_y s + (j - q) * dy) with (stone_y s + dy * (j - q)) by ring.
      exact Hm.
  - intros [k [Hk Hall]].
    assert (H1 : 4 - k <= p).
    { apply (Hpm (4 - k) ltac:(lia)). intros j Hj.
      apply (matches_has_color b _ _ _ Hu).
      specialize (Hall (j + k) ltac:(lia)).
      replace (stone_x s + (j + k - k) * dx) with (stone_x s + dx * j) in Hall by ring.
      replace (stone_y s + (j + k - k) * dy) with (stone_y s + dy * j) in Hall by ring.
      exact Hall. }
    assert (H2 : k <= q).
    { apply (Hqm k ltac:(lia)). intros j Hj.
      apply (matches_has_color b _ _ _ Hu).
      specialize (Hall (k - j) ltac:(lia)).
      replace (stone_x s + (k - j - k) * dx) with (stone_x s - dx * j) in Hall by ring.
      replace (stone_y s + (k - j - k) * dy) with (stone_y s - dy * j) in Hall by ring.
      exact Hall. }
    lia.
Qed.

(** C6.  On a board with at most one stone per coordinate, [check_win] of
    a stone of the board is true exactly when one of the four axes carries
    five same-coloured stones in a row through it; the run (0,0)-(4,0)
    wins at each of its stones, the run broken at x=2 at none. *)
Theorem check_win_five_in_a_row :
  (forall (b : Board) (s : Stone),
      unique_coords b -> In s (stones b) ->
      (check_win b (Some s) = true
       <-> exists d, In d directions /\ five_through b s d)) /\
  (forall s, In s (stones run_board) -> check_win run_board (Some s) = true) /\
  (forall s, In s (stones broken_board) ->
             check_win broken_board (Some s) = false).
Proof.
  split; [ | split ].
  - intros b s Hu Hin. unfold check_win. rewrite existsb_exists.
    split; intros [d [Hd H]]; exists d; split; trivial;
      now apply (win_count_five b s d Hu Hin).
  - intros s Hin. vm_compute in Hin.
    repeat (destruct Hin as [<- | Hin]; [ reflexivity | ]). contradiction.
  - intros s Hin. vm_compute in Hin.
    repeat (destruct Hin as [<- | Hin]; [ reflexivity | ]). contradiction.
Qed.

Lemma check_win_five_in_a_row_witness :
  check_win run_board (Some (mkStone 2 0 BLACK)) = true
  <-> exists d, In d directions /\ five_through run_board (mkStone 2 0 BLACK) d.
Proof.
  apply (proj1 check_win_five_in_a_row run_board (mkStone 2 0 BLACK)).
  - exact (proj1 (run_ops_inv _ Board_init (conj (NoDup_nil _) (Forall_nil _)))).
  - vm_compute. tauto.
Defined.

(** ** The directional walk of the evaluator *)

Lemma eval_arm_cons (b : Board) (color : Color) (cell : Z -> Z * Z)
      (i : Z) (rest : list Z) (t : Tally) :
  eval_arm b color cell (i :: rest) t
  = if matches b color (cell i)
    then eval_arm b color cell rest (mkTally (count t + 1) (open_ends t) (blocks t))
    else match get_stone_at b (fst (cell i)) (snd (cell i)) with
         | Some _ => mkTally (count t) (open_ends t) (blocks t + 1)
         | None => mkTally (count t) (open_ends t + 1) (blocks t)
         end.
Proof.
  simpl. unfold matches. destruct (cell i) as [x y]. simpl.
  now destruct (get_stone_at b x y) as [s|].
Qed.

Lemma stop_cell_tally (b : Board) (x y : Z) (c o k : Z) :
  (~ occupied b x y ->
   match get_stone_at b x y with
   | Some _ => mkTally c o (k + 1)
   | None => mkTally c (o + 1) k
   end = mkTally c (o + 1) k) /\
  (occupied b x y ->
   match get_stone_at b x y with
   | Some _ => mkTally c o (k + 1)
   | None => mkTally c (o + 1) k
   end = mkTally c o (k + 1)).
Proof.
  split; intros H.
  - apply get_stone_at_None in H. now rewrite H.
  - destruct (get_stone_at b x y) eqn:E; trivial.
    apply get_stone_at_None in E. contradiction.
Qed.

(** C2 as stated fails: on the empty board the walk from (0,0) to the
    left stops at (-1,0), off the grid, and counts an open end. *)
Lemma open_end_counted_off_board :
  ~ open_end_needs_grid_cell Board_init WHITE (fun i => (0 - i * 1, 0 - i * 0)).
Proof.
  intros H.
  assert (Hstop : stops_at Board_init WHITE (fun i => (0 - i * 1, 0 - i * 0)) 1)
    by (split; [ intros j Hj; lia | reflexivity ]).
  assert (Hi : 1 <= 1 <= 4) by lia.
  destruct (H 1 (mkTally 1 0 0) Hi Hstop eq_refl) as [[Hx _] _].
  simpl in Hx. lia.
Qed.

(** The open end off the grid shows in the score: at the corner (0,0),
    next to a white stone at (1,0), the horizontal axis has count 2 and two
    open ends, (2,0) and (-1,0), and scores twice the weight of a two. *)
Lemma corner_two_scored_open :
  axis_tally white_edge_board 0 0 WHITE (1, 0) = mkTally 2 2 0 /\
  _evaluate_position MEDIUM 0 0 white_edge_board WHITE = 2 * w2 (weights MEDIUM).
Proof. split; reflexivity. Qed.

(** C2, amended.  A walk of [_evaluate_position] that stops at step i has
    counted the i-1 matching stones before it; it adds one open end when
    the cell it stops at holds no stone, be it an empty cell of the grid
    or a cell off the grid, and it adds one block and no open end when
    that cell holds a stone (then of another colour).  A walk whose four
    cells all match adds neither.  On a board whose stones all lie on the
    grid, a cell off the grid holds no stone. *)
Theorem eval_arm_open_end (b : Board) (color : Color) (cell : Z -> Z * Z)
        (t : Tally) :
  (forall i, 1 <= i <= 4 -> stops_at b color cell i ->
     (~ occupied b (fst (cell i)) (snd (cell i)) ->
      eval_arm b color cell range_1_5 t
      = mkTally (count t + (i - 1)) (open_ends t + 1) (blocks t)) /\
     (occupied b (fst (cell i)) (snd (cell i)) ->
      eval_arm b color cell range_1_5 t
      = mkTally (count t + (i - 1)) (open_ends t) (blocks t + 1))) /\
  ((forall j, 1 <= j <= 4 -> matches b color (cell j) = true) ->
   eval_arm b color cell range_1_5 t
   = mkTally (count t + 4) (open_ends t) (blocks t)) /\
  (forall x y, all_in_bounds b -> ~ in_bounds b x y -> ~ occupied b x y).
Proof.
  split; [ | split ].
  - intros i Hi [Hbefore Hstop].
    unfold range_1_5. rewrite !eval_arm_cons. cbn [count open_ends blocks].
    assert (Hcase : i = 1 \/ i = 2 \/ i = 3 \/ i = 4) by lia.
    destruct Hcase as [-> | [-> | [-> | ->]]].
    + rewrite Hstop.
      replace (count t + (1 - 1)) with (count t) by ring.
      apply stop_cell_tally.
    + rewrite (Hbefore 1 ltac:(lia)), Hstop.
      replace (count t + (2 - 1)) with (count t + 1) by ring.
      apply stop_cell_tally.
    + rewrite (Hbefore 1 ltac:(lia)), (Hbefore 2 ltac:(lia)), Hstop.
      replace (count t + (3 - 1)) with (count t + 1 + 1) by ring.
      apply stop_cell_tally.
    + rewrite (Hbefore 1 ltac:(lia)), (Hbefore 2 ltac:(lia)),
        (Hbefore 3 ltac:(lia)), Hstop.
      replace (count t + (4 - 1)) with (count t + 1 + 1 + 1) by ring.
      apply stop_cell_tally.
  - intros Hall. unfold range_1_5. rewrite !eval_arm_cons.
    rewrite (Hall 1 ltac:(lia)), (Hall 2 ltac:(lia)),
      (Hall 3 ltac:(lia)), (Hall 4 ltac:(lia)).
    simpl. f_equal. ring.
  - intros x y Hb Hout [s [Hin [Hx Hy]]].
    unfold all_in_bounds in Hb. rewrite Forall_forall in Hb.
    apply Hout. rewrite <- Hx, <- Hy. now apply Hb.
Qed.

Lemma eval_arm_open_end_witness :
  eval_arm Board_init WHITE (fun i => (0 - i * 1, 0 - i * 0)) range_1_5
           (mkTally 1 0 0)
  = mkTally (1 + (1 - 1)) (0 + 1) 0.
Proof.
  apply (proj1 (proj1 (eval_arm_open_end Board_init WHITE
                         (fun i => (0 - i * 1, 0 - i * 0)) (mkTally 1 0 0))
                      1 ltac:(lia)
                      (conj (fun j (Hj : 1 <= j < 1) =>
                               ltac:(exfalso; lia)) eq_refl))).
  intros [s [Hin _]]. exact Hin.
Defined.

(** ** The move generator *)

Section SortedReverse.

Context {A : Type} (key : A -> Z).

Lemma insert_desc_perm (a : A) (l : list A) :
  Permutation (insert_desc key a l) (a :: l).
Proof.
  induction l as [|e r IH]; simpl; [ reflexivity | ].
  destruct (key a <? key e); [ | reflexivity ].
  rewrite IH. apply perm_swap.
Qed.

Lemma sorted_reverse_perm (l : list A) : Permutation (sorted_reverse key l) l.
Proof.
  induction l as [|a r IH]; simpl; [ reflexivity | ].
  rewrite insert_desc_perm. now constructor.
Qed.

Lemma insert_desc_descending (a : A) (l : list A) :
  descending key l -> descending key (insert_desc key a l).
Proof.
  unfold descending.
  induction l as [|e r IH]; simpl; intros Hs.
  - constructor; constructor.
  - apply StronglySorted_inv in Hs. destruct Hs as [Hr He].
    destruct (key a <? key e) eqn:E.
    + apply Z.ltb_lt in E. constructor; [ now apply IH | ].
      apply (Permutation_Forall (Permutation_sym (insert_desc_perm a r))).
      constructor; [ lia | exact He ].
    + apply Z.ltb_ge in E. constructor.
      * now constructor.
      * constructor; [ exact E | ].
        eapply Forall_impl; [ | exact He ]. simpl. intros q Hq. lia.
Qed.

Lemma sorted_reverse_descending (l : list A) :
  descending key (sorted_reverse key l).
Proof.
  induction l as [|a r IH]; simpl.
  - constructor.
  - now apply insert_desc_descending.
Qed.

(** Stability: the elements of one key keep their order. *)
Lemma insert_desc_stable (v : Z) (a : A) (l : list A) :
  filter (fun z => key z =? v) (insert_desc key a l)
  = filter (fun z => key z =? v) (a :: l).
Proof.
  induction l as [|e r IH]; [ reflexivity | ].
  cbn [insert_desc]. destruct (key a <? key e) eqn:E; [ | reflexivity ].
  apply Z.ltb_lt in E. cbn [filter]. rewrite IH. cbn [filter].
  destruct (key a =? v) eqn:Ea, (key e =? v) eqn:Ee; trivial.
  apply Z.eqb_eq in Ea, Ee. lia.
Qed.

Lemma sorted_reverse_stable (v : Z) (l : list A) :
  filter (fun z => key z =? v) (sorted_reverse key l)
  = filter (fun z => key z =? v) l.
Proof.
  induction l as [|a r IH]; [ reflexivity | ].
  cbn [sorted_reverse]. rewrite insert_desc_stable. cbn [filter].
  now rewrite IH.
Qed.

End SortedReverse.

Lemma insert_desc_tagged {A : Type} (key : A -> Z) (a : A) (l : list A) :
  insert_desc fst (key a, a) (map (fun p => (key p, p)) l)
  = map (fun p => (key p, p)) (insert_desc key a l).
Proof.
  induction l as [|e r IH]; [ reflexivity | ].
  simpl. destruct (key a <? key e); simpl; [ now rewrite IH | reflexivity ].
Qed.

Lemma sorted_reverse_tagged {A : Type} (key : A -> Z) (l : list A) :
  map snd (sorted_reverse fst (map (fun p => (key p, p)) l))
  = sorted_reverse key l.
Proof.
  assert (H : sorted_reverse fst (map (fun p => (key p, p)) l)
              = map (fun p => (key p, p)) (sorted_reverse key l)).
  { induction l as [|a r IH]; [ reflexivity | ].
    simpl. rewrite IH. apply insert_desc_tagged. }
  rewrite H, map_map. simpl. apply map_id.
Qed.

(** The scan of [_get_valid_moves] visits the candidate cells row by row
    and tags each with its score for WHITE. *)
Lemma scan_tagged {T : Type} (keep : Z -> Z -> bool) (tag : Z * Z -> T)
      (xs ys : list Z) :
  flat_map (fun x => flat_map (fun y => if keep x y then [tag (x, y)] else []) ys) xs
  = map tag (filter (fun p => keep (fst p) (snd p)) (list_prod xs ys)).
Proof.
  induction xs as [|x xs IH]; [ reflexivity | ].
  cbn [flat_map list_prod]. rewrite filter_app, map_app, IH. f_equal.
  clear IH. induction ys as [|y ys IHy]; [ reflexivity | ].
  cbn [flat_map map filter fst snd]. rewrite IHy.
  now destruct (keep x y).
Qed.

Lemma scored_candidates_tagged (d : Difficulty) (b : Board) :
  scored_candidates d b
  = map (fun p => (white_score d b p, p)) (candidates b).
Proof.
  unfold scored_candidates, candidates, all_cells.
  apply (scan_tagged
           (fun x y => is_valid_move b x y && _has_neighbor b x y 2)
           (fun p => (white_score d b p, p))).
Qed.

Lemma get_valid_moves_sorted (d : Difficulty) (b : Board) :
  _get_valid_moves d b = sorted_reverse (white_score d b) (candidates b).
Proof.
  unfold _get_valid_moves. rewrite scored_candidates_tagged.
  apply sorted_reverse_tagged.
Qed.

Lemma StronglySorted_head {A : Type} (R : A -> A -> Prop) (a q : A) (l : list A) :
  StronglySorted R (a :: l) -> In q l -> R a q.
Proof.
  intros H Hin. apply StronglySorted_inv in H. destruct H as [_ H].
  rewrite Forall_forall in H. now apply H.
Qed.

(** C3 as stated fails: with one black stone at (7,7) the generator puts
    (5,5), of two-colour sum 0, ahead of (6,6), of two-colour sum 40. *)
Lemma valid_moves_not_sorted_by_sum :
  ~ descending (two_color_sum MEDIUM one_black_board)
               (_get_valid_moves MEDIUM one_black_board).
Proof.
  unfold descending. intros H.
  remember (_get_valid_moves MEDIUM one_black_board) as l eqn:E.
  vm_compute in E. subst l.
  apply (StronglySorted_head _ _ (6, 6)) in H; [ | simpl; tauto ].
  vm_compute in H. apply H. reflexivity.
Qed.

(** C3, amended.  [_get_valid_moves] scores each candidate cell (empty,
    with a stone within distance 2) with the evaluator for WHITE alone and
    returns exactly the candidates, in descending order of that score,
    cells of equal score in the row-by-row order of the scan. *)
Theorem get_valid_moves_spec (d : Difficulty) (b : Board) :
  descending (white_score d b) (_get_valid_moves d b) /\
  Permutation (_get_valid_moves d b) (candidates b) /\
  (forall v, filter (fun p => white_score d b p =? v) (_get_valid_moves d b)
             = filter (fun p => white_score d b p =? v) (candidates b)).
Proof.
  rewrite get_valid_moves_sorted. split; [ | split ].
  - apply sorted_reverse_descending.
  - apply sorted_reverse_perm.
  - intros v. apply sorted_reverse_stable.
Qed.

(** ** The static evaluation *)

Lemma in_range (lo hi x : Z) : In x (range lo hi) <-> lo <= x < hi.
Proof.
  unfold range. rewrite in_map_iff. split.
  - intros [k [<- Hk]]. apply in_seq in Hk. lia.
  - intros H. exists (Z.to_nat (x - lo)). split; [ lia | ].
    apply in_seq. lia.
Qed.

Lemma in_empty_cells (b : Board) (p : Z * Z) :
  In p (empty_cells b)
  <-> in_bounds b (fst p) (snd p) /\ ~ occupied b (fst p) (snd p).
Proof.
  unfold empty_cells, all_cells. rewrite filter_In, is_valid_move_spec.
  destruct p as [x y]. rewrite in_prod_iff, !in_range. unfold in_bounds.
  simpl. tauto.
Qed.

Lemma sum_list_app (l1 l2 : list Z) :
  sum_list (l1 ++ l2) = sum_list l1 + sum_list l2.
Proof. induction l1 as [|a l1 IH]; simpl; [ reflexivity | rewrite IH; ring ]. Qed.

(** The inner loop of [_evaluate_board] over one row. *)
Lemma row_total (d : Difficulty) (b : Board) (x : Z) (ys : list Z) :
  forall acc,
    fold_left
      (fun total_score y =>
         if is_valid_move b x y then
           let total_score := total_score + _evaluate_position d x y b WHITE in
           let total_score := total_score - _evaluate_position d x y b BLACK in
           total_score
         else total_score) ys acc
    = acc + sum_list (map (threat_difference d b)
                          (filter (fun p => is_valid_move b (fst p) (snd p))
                                  (map (fun y => (x, y)) ys))).
Proof.
  induction ys as [|y ys IH]; intros acc; simpl; [ ring | ].
  rewrite IH. destruct (is_valid_move b x y); simpl; [ | reflexivity ].
  unfold threat_difference at 2. simpl. ring.
Qed.

Lemma grid_total (d : Difficulty) (b : Board) (xs ys : list Z) :
  forall acc,
    fold_left
      (fun total_score x =>
         fold_left
           (fun total_score y =>
              if is_valid_move b x y then
                let total_score := total_score + _evaluate_position d x y b WHITE in
                let total_score := total_score - _evaluate_position d x y b BLACK in
                total_score
              else total_score) ys total_score) xs acc
    = acc + sum_list (map (threat_difference d b)
                          (filter (fun p => is_valid_move b (fst p) (snd p))
                                  (list_prod xs ys))).
Proof.
  induction xs as [|x xs IH]; intros acc; [ simpl; ring | ].
  cbn [fold_left list_prod]. rewrite IH, row_total.
  rewrite filter_app, map_app, sum_list_app. ring.
Qed.

Lemma board_total_sum (d : Difficulty) (b : Board) :
  board_total d b = sum_list (map (threat_difference d b) (empty_cells b)).
Proof. unfold board_total, empty_cells, all_cells. now rewrite grid_total. Qed.

(** C5.  [_evaluate_board] is +infinity when the last move wins for
    WHITE, -infinity when it wins for BLACK, 0 on a full board without a
    winner, and on a board that is not over the sum over the empty cells
    (the in-bounds, unoccupied ones) of the score for WHITE minus the score
    for BLACK. *)
Theorem evaluate_board_spec (d : Difficulty) (b : Board) :
  (forall lm, last_move b = Some lm -> check_win b (Some lm) = true ->
     (stone_color lm = WHITE -> _evaluate_board d b = PosInf) /\
     (stone_color lm = BLACK -> _evaluate_board d b = NegInf)) /\
  (Z.of_nat (length (stones b)) = size b * size b -> get_winner b = None ->
   _evaluate_board d b = Int 0) /\
  (is_game_over b = false ->
   _evaluate_board d b
   = Int (sum_list (map (threat_difference d b) (empty_cells b)))) /\
  (forall p, In p (empty_cells b)
             <-> in_bounds b (fst p) (snd p) /\ ~ occupied b (fst p) (snd p)).
Proof.
  split; [ | split; [ | split ] ].
  - intros lm Hl Hw. unfold _evaluate_board, is_game_over, get_winner.
    rewrite Hl, Hw. simpl. split; intros ->; reflexivity.
  - intros Hfull Hnone. unfold _evaluate_board. rewrite Hnone.
    unfold is_game_over. apply Z.eqb_eq in Hfull. rewrite Hfull.
    now destruct ((match last_move b with Some _ => true | None => false end)
                  && check_win b (last_move b)).
  - intros Hng. unfold _evaluate_board. rewrite Hng.
    now rewrite board_total_sum.
  - apply in_empty_cells.
Qed.

Lemma evaluate_board_spec_witness :
  _evaluate_board MEDIUM run_board = NegInf /\
  _evaluate_board MEDIUM full_board = Int 0 /\
  _evaluate_board MEDIUM one_black_board
  = Int (sum_list (map (threat_difference MEDIUM one_black_board)
                       (empty_cells one_black_board))).
Proof.
  split; [ | split ].
  - apply (proj1 (evaluate_board_spec MEDIUM run_board) (mkStone 4 0 BLACK));
      reflexivity.
  - apply (proj1 (proj2 (evaluate_board_spec MEDIUM full_board)));
      vm_compute; reflexivity.
  - apply (proj1 (proj2 (proj2 (evaluate_board_spec MEDIUM one_black_board)))).
    reflexivity.
Defined.

(** ** The first move *)

Lemma existsb_never {A : Type} (f : A -> bool) (l : list A) :
  (forall a, f a = false) -> existsb f l = false.
Proof. intros H. induction l as [|a l IH]; simpl; [ | rewrite H ]; trivial. Qed.

Lemma flat_map_nothing {A B : Type} (f : A -> list B) (l : list A) :
  (forall a, f a = []) -> flat_map f l = [].
Proof. intros H. induction l as [|a l IH]; simpl; [ | rewrite H ]; trivial. Qed.

(** Without stones no cell has a neighbour. *)
Lemma has_neighbor_no_stones (b : Board) (x y distance : Z) :
  stones b = [] -> _has_neighbor b x y distance = false.
Proof.
  intros Hs. unfold _has_neighbor.
  apply existsb_never. intros dx. apply existsb_never. intros dy.
  unfold get_stone_at. rewrite Hs. simpl.
  destruct ((dx =? 0) && (dy =? 0)); trivial.
  now destruct ((0 <=? x + dx) && (x + dx <? size b)
                && (0 <=? y + dy) && (y + dy <? size b)).
Qed.

Lemma get_valid_moves_no_stones (d : Difficulty) (b : Board) :
  stones b = [] -> _get_valid_moves d b = [].
Proof.
  intros Hs. unfold _get_valid_moves, scored_candidates.
  rewrite flat_map_nothing; [ reflexivity | ].
  intros x. apply flat_map_nothing. intros y.
  rewrite (has_neighbor_no_stones b x y 2 Hs). now rewrite andb_false_r.
Qed.

Lemma get_move_no_stones (d : Difficulty) (b : Board) :
  stones b = [] -> get_move d b = ((size b / 2, size b / 2), b).
Proof.
  intros Hs. unfold get_move. now rewrite (get_valid_moves_no_stones d b Hs).
Qed.

(** C7.  On the empty 15x15 board no cell has a neighbour within distance
    2, the generator yields no candidate, and [get_move] returns the
    centre (7,7) at every difficulty, leaving the board as it was. *)
Theorem get_move_empty_board (d : Difficulty) :
  (forall x y, _has_neighbor Board_init x y 2 = false) /\
  _get_valid_moves d Board_init = [] /\
  get_move d Board_init = ((7, 7), Board_init).
Proof.
  split; [ | split ].
  - intros x y. now apply has_neighbor_no_stones.
  - now apply get_valid_moves_no_stones.
  - now rewrite get_move_no_stones.
Qed.

(** ** Search against the static evaluation *)

Lemma alpha_beta_game_over (d : Difficulty) (depth : nat) (b : Board)
      (alpha beta : Number) (is_maximizing : bool) :
  is_game_over b = true ->
  _alpha_beta d depth b alpha beta is_maximizing = (_evaluate_board d b, b).
Proof. intros H. destruct depth; simpl; [ | rewrite H ]; reflexivity. Qed.

Lemma alpha_beta_no_moves (d : Difficulty) (depth : nat) (b : Board)
      (alpha beta : Number) :
  is_game_over b = false -> _get_valid_moves d b = [] ->
  _alpha_beta d (S depth) b alpha beta true = (NegInf, b).
Proof. intros Hg Hm. simpl. now rewrite Hg, Hm. Qed.

Lemma num_leb_refl (a : Number) : num_leb a a = true.
Proof.
  unfold num_leb. destruct a; simpl; trivial.
  apply negb_true_iff, Z.ltb_irrefl.
Qed.

(** C8 as stated fails: on the empty board the search at depth 1 has no
    candidate and returns -infinity, below the static evaluation 0. *)
Lemma search_below_static_on_empty_board :
  ~ search_not_below_static MEDIUM 1 Board_init.
Proof.
  unfold search_not_below_static. intros H.
  specialize (H (le_n 1)). vm_compute in H. discriminate H.
Qed.

(** C8, amended.  On a board where the game is over, the search at any
    depth returns the static evaluation itself, so it is not below it.  On
    a board that is not over the bound can fail: when the generator yields
    no candidate the search at depth >= 1 returns -infinity, while the
    static evaluation is an integer. *)
Theorem alpha_beta_vs_static (d : Difficulty) (depth : nat) (b : Board) :
  (is_game_over b = true ->
   fst (_alpha_beta d depth b NegInf PosInf true) = _evaluate_board d b /\
   num_leb (_evaluate_board d b)
           (fst (_alpha_beta d depth b NegInf PosInf true)) = true) /\
  ((1 <= depth)%nat -> is_game_over b = false -> _get_valid_moves d b = [] ->
   fst (_alpha_beta d depth b NegInf PosInf true) = NegInf /\
   exists z, _evaluate_board d b = Int z).
Proof.
  split.
  - intros H. rewrite (alpha_beta_game_over d depth b _ _ _ H). simpl.
    split; [ reflexivity | apply num_leb_refl ].
  - intros Hd Hg Hm. destruct depth as [|depth']; [ lia | ].
    rewrite (alpha_beta_no_moves d depth' b _ _ Hg Hm). simpl.
    split; [ reflexivity | ].
    unfold _evaluate_board. rewrite Hg. now exists (board_total d b).
Qed.

Lemma alpha_beta_vs_static_witness :
  (fst (_alpha_beta HARD 3 run_board NegInf PosInf true)
   = _evaluate_board HARD run_board /\
   num_leb (_evaluate_board HARD run_board)
           (fst (_alpha_beta HARD 3 run_board NegInf PosInf true)) = true) /\
  (fst (_alpha_beta HARD 3 Board_init NegInf PosInf true) = NegInf /\
   exists z, _evaluate_board HARD Board_init = Int z).
Proof.
  split.
  - apply (proj1 (alpha_beta_vs_static HARD 3 run_board)). reflexivity.
  - apply (proj2 (alpha_beta_vs_static HARD 3 Board_init)).
    + lia.
    + reflexivity.
    + reflexivity.
Defined.

(** The bound also fails where candidates exist: with one black stone at
    (7,7) the two-ply search returns -560, the static evaluation -320. *)
Lemma search_below_static_with_candidates :
  _get_valid_moves MEDIUM one_black_board <> [] /\
  fst (_alpha_beta MEDIUM 2 one_black_board NegInf PosInf true) = Int (-560) /\
  _evaluate_board MEDIUM one_black_board = Int (-320).
Proof.
  split; [ | split ]; vm_compute; [ discriminate | reflexivity | reflexivity ].
Qed.

(** ** Lookup, placement and removal *)

Lemma find_app_last {A : Type} (f : A -> bool) (l : list A) (a : A) :
  find f (l ++ [a])
  = match find f l with
    | Some s => Some s
    | None => if f a then Some a else None
    end.
Proof.
  induction l as [|e l IH]; simpl; [ reflexivity | ].
  now destruct (f e).
Qed.

Lemma at_coord_other (x y x' y' : Z) (s : Stone) :
  (x', y') <> (x, y) -> at_coord x y s = true -> at_coord x' y' s = false.
Proof.
  intros Hne Hs. apply at_coord_true in Hs. destruct Hs as [Hx Hy].
  apply not_true_iff_false. intros H. apply at_coord_true in H.
  destruct H as [Hx' Hy']. apply Hne. congruence.
Qed.

(** X1.  After a successful placement the cell holds the new stone, every
    other cell holds what it held, and the cell is no longer a valid
    move. *)
Theorem get_stone_at_after_place (b : Board) (x y : Z) (color : Color) :
  in_bounds b x y -> ~ occupied b x y ->
  let b' := fst (place_stone b x y color) in
  get_stone_at b' x y = Some (mkStone x y color) /\
  (forall x' y', (x', y') <> (x, y) ->
                 get_stone_at b' x' y' = get_stone_at b x' y') /\
  is_valid_move b' x y = false.
Proof.
  intros Hb Hf.
  assert (Hv : is_valid_move b x y = true) by (apply is_valid_move_spec; tauto).
  cbv zeta. rewrite (place_stone_valid b x y color Hv). cbn [fst].
  assert (Hnew : at_coord x y (mkStone x y color) = true)
    by (apply at_coord_true; split; reflexivity).
  split; [ | split ].
  - unfold get_stone_at. cbn [stones]. rewrite find_app_last.
    apply get_stone_at_None in Hf. unfold get_stone_at in Hf.
    now rewrite Hf, Hnew.
  - intros x' y' Hne. unfold get_stone_at. cbn [stones].
    rewrite find_app_last.
    rewrite (at_coord_other x y x' y' _ Hne Hnew).
    now destruct (find (at_coord x' y') (stones b)).
  - apply not_true_iff_false. intros H. apply is_valid_move_spec in H.
    destruct H as [_ H]. apply H. exists (mkStone x y color).
    cbn [stones]. split; [ | split; reflexivity ].
    apply in_or_app. right. now left.
Qed.

Lemma get_stone_at_after_place_witness :
  get_stone_at (fst (place_stone Board_init 7 7 BLACK)) 7 7
  = Some (mkStone 7 7 BLACK).
Proof.
  apply (get_stone_at_after_place Board_init 7 7 BLACK).
  - vm_compute. split; split; discriminate || reflexivity.
  - apply (proj1 (is_valid_move_spec Board_init 7 7)). reflexivity.
Defined.

Lemma occupied_apply_op (b : Board) (x y : Z) (op : Op) :
  keeps_cell x y op -> occupied b x y -> occupied (apply_op b op) x y.
Proof.
  intros Hk [s [Hin [Hx Hy]]]. destruct op as [x' y' c | x' y']; simpl.
  - unfold place_stone. destruct (is_valid_move b x' y'); simpl.
    + exists s. split; [ apply in_or_app; now left | tauto ].
    + exists s. tauto.
  - exists s. split; [ | tauto ].
    rewrite remove_stone_stones. apply filter_In. split; trivial.
    apply negb_true_iff.
    apply (at_coord_other x y x' y' s Hk). now apply at_coord_true.
Qed.

(** X2.  A coordinate that holds a stone refuses every later placement, of
    either colour, until a removal at that very coordinate. *)
Theorem place_stone_refused_while_occupied (b : Board) (x y : Z)
        (ops : list Op) (color : Color) :
  occupied b x y -> Forall (keeps_cell x y) ops ->
  occupied (run_ops ops b) x y /\
  place_stone (run_ops ops b) x y color = (run_ops ops b, false).
Proof.
  intros Ho Hops.
  assert (H : occupied (run_ops ops b) x y).
  { revert b Ho. induction Hops as [|op ops Hop Hops IH]; intros b Ho.
    - exact Ho.
    - simpl. apply IH. now apply occupied_apply_op. }
  split; [ exact H | ].
  apply place_stone_invalid. apply not_true_iff_false. intros Hv.
  apply is_valid_move_spec in Hv. tauto.
Qed.

Lemma place_stone_refused_while_occupied_witness :
  place_stone (run_ops [Place 3 3 WHITE; Remove 0 0] one_black_board) 7 7 WHITE
  = (run_ops [Place 3 3 WHITE; Remove 0 0] one_black_board, false).
Proof.
  apply (place_stone_refused_while_occupied one_black_board 7 7
           [Place 3 3 WHITE; Remove 0 0] WHITE).
  - exists (mkStone 7 7 BLACK). vm_compute. tauto.
  - repeat constructor. simpl. discriminate.
Defined.

Lemma find_filter_other (x y x' y' : Z) (l : list Stone) :
  (x', y') <> (x, y) ->
  find (at_coord x' y') (filter (fun stone => negb (at_coord x y stone)) l)
  = find (at_coord x' y') l.
Proof.
  intros Hne. induction l as [|s l IH]; simpl; [ reflexivity | ].
  destruct (at_coord x y s) eqn:E; simpl.
  - now rewrite (at_coord_other x y x' y' s Hne E).
  - now rewrite IH.
Qed.

(** X3.  [remove_stone] empties the cell, even of several stones, and leaves
    every other cell as it was; an in-bounds cell is a valid move again. *)
Theorem get_stone_at_after_remove (b : Board) (x y : Z) :
  get_stone_at (remove_stone b x y) x y = None /\
  (forall x' y', (x', y') <> (x, y) ->
     get_stone_at (remove_stone b x y) x' y' = get_stone_at b x' y') /\
  (in_bounds b x y -> is_valid_move (remove_stone b x y) x y = true).
Proof.
  assert (Hfree : ~ occupied (remove_stone b x y) x y).
  { intros [s [Hin Hs]]. rewrite remove_stone_stones in Hin.
    apply filter_In in Hin. destruct Hin as [_ Hn].
    apply negb_true_iff in Hn. apply at_coord_true in Hs. congruence. }
  split; [ | split ].
  - now apply get_stone_at_None.
  - intros x' y' Hne. unfold get_stone_at. rewrite remove_stone_stones.
    now apply find_filter_other.
  - intros Hb. apply is_valid_move_spec. split; trivial.
    unfold in_bounds. now rewrite remove_stone_size.
Qed.

Lemma get_stone_at_after_remove_witness :
  is_valid_move (remove_stone run_board 2 0) 2 0 = true.
Proof.
  apply (proj2 (proj2 (get_stone_at_after_remove run_board 2 0))).
  vm_compute. split; split; discriminate || reflexivity.
Defined.

Lemma filter_filter_same {A : Type} (f : A -> bool) (l : list A) :
  filter f (filter f l) = filter f l.
Proof.
  apply filter_all. intros a Ha. apply filter_In in Ha. tauto.
Qed.

(** X4.  Removing where no stone lies leaves the stone list as it is, and a
    second removal at the same coordinate changes nothing more. *)
Theorem remove_stone_absent_idempotent (b : Board) (x y : Z) :
  (~ occupied b x y -> stones (remove_stone b x y) = stones b) /\
  remove_stone (remove_stone b x y) x y = remove_stone b x y.
Proof.
  split.
  - intros Hf. rewrite remove_stone_stones. apply filter_all.
    intros s Hin. apply negb_true_iff, not_true_iff_false. intros Hs.
    apply Hf. exists s. split; trivial. now apply at_coord_true.
  - unfold remove_stone.
    destruct (last_move b) as [lm|]; cbn [last_move stones size].
    + destruct ((stone_x lm =? x) && (stone_y lm =? y)) eqn:E;
        cbn [last_move stones size]; rewrite ?E, filter_filter_same;
        reflexivity.
    + now rewrite filter_filter_same.
Qed.

Lemma remove_stone_absent_idempotent_witness :
  stones (remove_stone run_board 9 9) = stones run_board.
Proof.
  apply (proj1 (remove_stone_absent_idempotent run_board 9 9)).
  intros [s [Hin [Hx _]]]. vm_compute in Hin.
  repeat (destruct Hin as [<- | Hin]; [ discriminate Hx | ]). exact Hin.
Defined.

(** ** Further invariants of reachable boards *)

Lemma filter_keeps_last (x y : Z) (l : list Stone) (s : Stone) :
  at_coord x y s = false ->
  filter (fun stone => negb (at_coord x y stone)) (l ++ [s])
  = filter (fun stone => negb (at_coord x y stone)) l ++ [s].
Proof. intros H. rewrite filter_app. simpl. now rewrite H. Qed.

Lemma apply_op_last_move (b : Board) (op : Op) :
  last_move_is_last b -> last_move_is_last (apply_op b op).
Proof.
  unfold last_move_is_last. intros H. destruct op as [x y c | x y]; simpl.
  - unfold place_stone. destruct (is_valid_move b x y); simpl; trivial.
    now exists (stones b).
  - unfold remove_stone. destruct (last_move b) as [lm|]; simpl; trivial.
    destruct ((stone_x lm =? x) && (stone_y lm =? y)) eqn:E; simpl; trivial.
    destruct H as [l Hl]. rewrite Hl.
    exists (filter (fun stone => negb (at_coord x y stone)) l).
    now apply filter_keeps_last.
Qed.

Lemma run_ops_last_move (ops : list Op) :
  forall b, last_move_is_last b -> last_move_is_last (run_ops ops b).
Proof.
  induction ops as [|op ops IH]; intros b Hb; simpl; trivial.
  apply IH. now apply apply_op_last_move.
Qed.

(** X5.  On every board reached from an empty board the last move, when
    present, is the final stone of the stone list, and it is the stone
    that [get_stone_at] finds at its own coordinate. *)
Theorem reachable_last_move (n : Z) (ops : list Op) (s : Stone) :
  last_move (run_ops ops (mkBoard n [] None)) = Some s ->
  (exists l, stones (run_ops ops (mkBoard n [] None)) = l ++ [s]) /\
  get_stone_at (run_ops ops (mkBoard n [] None)) (stone_x s) (stone_y s)
  = Some s.
Proof.
  intros Hl.
  assert (Hlast : last_move_is_last (run_ops ops (mkBoard n [] None)))
    by (apply run_ops_last_move; exact I).
  assert (Hinv : board_inv (run_ops ops (mkBoard n [] None)))
    by (apply run_ops_inv; split; constructor).
  unfold last_move_is_last in Hlast. rewrite Hl in Hlast.
  split; [ exact Hlast | ].
  destruct Hlast as [l Hs].
  assert (Hin : In s (stones (run_ops ops (mkBoard n [] None))))
    by (rewrite Hs; apply in_or_app; right; now left).
  destruct (get_stone_at (run_ops ops (mkBoard n [] None))
                         (stone_x s) (stone_y s)) as [s'|] eqn:E.
  - apply get_stone_at_Some in E. destruct E as [Hin' [Hx Hy]].
    f_equal. apply (unique_coords_inj _ s' s (proj1 Hinv) Hin' Hin).
    unfold coord. congruence.
  - apply get_stone_at_None in E. exfalso. apply E. exists s. tauto.
Qed.

Lemma reachable_last_move_witness :
  (exists l, stones run_board = l ++ [mkStone 4 0 BLACK]) /\
  get_stone_at run_board 4 0 = Some (mkStone 4 0 BLACK).
Proof.
  apply (reachable_last_move BOARD_SIZE
           [Place 0 0 BLACK; Place 1 0 BLACK; Place 2 0 BLACK;
            Place 3 0 BLACK; Place 4 0 BLACK] (mkStone 4 0 BLACK)).
  reflexivity.
Defined.

Lemma range_length (lo hi : Z) : length (range lo hi) = Z.to_nat (hi - lo).
Proof. unfold range. now rewrite length_map, length_seq. Qed.

Lemma range_NoDup (lo hi : Z) : NoDup (range lo hi).
Proof.
  unfold range. apply Finite.Injective_map_NoDup_in; [ | apply seq_NoDup ].
  intros j k _ _ H. lia.
Qed.

Lemma list_prod_NoDup {A B : Type} (l1 : list A) (l2 : list B) :
  NoDup l1 -> NoDup l2 -> NoDup (list_prod l1 l2).
Proof.
  intros H1 H2. induction H1 as [|a l1 Ha H1 IH]; simpl; [ constructor | ].
  apply NoDup_app; trivial.
  - apply Finite.Injective_map_NoDup_in; trivial.
    intros j k _ _ H. now inversion H.
  - intros [a' b'] Hin Hin'. apply in_map_iff in Hin.
    destruct Hin as [b0 [Hb0 _]]. inversion Hb0; subst.
    apply in_prod_iff in Hin'. tauto.
Qed.

Lemma all_cells_NoDup (b : Board) : NoDup (all_cells b).
Proof. apply list_prod_NoDup; apply range_NoDup. Qed.

Lemma in_all_cells (b : Board) (x y : Z) :
  In (x, y) (all_cells b) <-> in_bounds b x y.
Proof. unfold all_cells, in_bounds. now rewrite in_prod_iff, !in_range. Qed.

Lemma all_cells_length (b : Board) :
  0 <= size b -> Z.of_nat (length (all_cells b)) = size b * size b.
Proof.
  intros H. unfold all_cells. rewrite length_prod, range_length.
  rewrite Nat2Z.inj_mul, Z.sub_0_r, Z2Nat.id; trivial.
Qed.

Lemma coords_in_all_cells (b : Board) :
  all_in_bounds b -> incl (map coord (stones b)) (all_cells b).
Proof.
  unfold all_in_bounds. rewrite Forall_forall. intros H [x y] Hin.
  apply in_map_iff in Hin. destruct Hin as [s [Hs Hin]].
  inversion Hs; subst. apply in_all_cells. now apply H.
Qed.

Lemma in_coords_occupied (b : Board) (x y : Z) :
  In (x, y) (map coord (stones b)) <-> occupied b x y.
Proof.
  rewrite in_map_iff. unfold occupied, coord.
  split; intros [s H]; exists s.
  - destruct H as [H Hin]. inversion H. tauto.
  - destruct H as [Hin [<- <-]]. tauto.
Qed.

(** X6.  A board with at most one stone per cell and all stones on the grid
    holds at most size*size stones, and it holds exactly that many, the
    full-board test of [is_game_over], exactly when no cell is a valid
    move. *)
Theorem full_board_no_valid_move (b : Board) :
  board_inv b -> 0 <= size b ->
  Z.of_nat (length (stones b)) <= size b * size b /\
  (Z.of_nat (length (stones b)) = size b * size b
   <-> forall x y, is_valid_move b x y = false).
Proof.
  intros [Hu Hb] Hn.
  pose proof (coords_in_all_cells b Hb) as Hincl.
  pose proof (NoDup_incl_length Hu Hincl) as Hle.
  rewrite length_map in Hle.
  pose proof (all_cells_length b Hn) as Hcells.
  split; [ lia | split ].
  - intros Hfull x y. apply not_true_iff_false. intros Hv.
    apply is_valid_move_spec in Hv. destruct Hv as [Hin Hfree].
    apply Hfree. apply in_coords_occupied.
    assert (Hback : incl (all_cells b) (map coord (stones b))).
    { apply (NoDup_length_incl Hu); trivial. rewrite length_map. lia. }
    apply Hback. now apply in_all_cells.
  - intros Hnone.
    assert (Hback : incl (all_cells b) (map coord (stones b))).
    { intros [x y] Hin. apply in_coords_occupied.
      apply in_all_cells in Hin.
      destruct (existsb (at_coord x y) (stones b)) eqn:E.
      - now apply existsb_at_coord.
      - exfalso. specialize (Hnone x y).
        apply not_true_iff_false in Hnone. apply Hnone.
        apply is_valid_move_spec. split; trivial.
        intros Ho. apply existsb_at_coord in Ho. congruence. }
    pose proof (NoDup_incl_length (all_cells_NoDup b) Hback) as Hge.
    rewrite length_map in Hge. lia.
Qed.

Lemma full_board_no_valid_move_witness :
  Z.of_nat (length (stones full_board)) <= size full_board * size full_board /\
  (Z.of_nat (length (stones full_board)) = size full_board * size full_board
   <-> forall x y, is_valid_move full_board x y = false).
Proof.
  apply (full_board_no_valid_move full_board).
  - apply run_ops_inv. split; constructor.
  - vm_compute. discriminate.
Defined.

(** ** The evaluator and winning cells *)

Lemma lookup_place_other (b : Board) (x y x' y' : Z) (color : Color) :
  (x', y') <> (x, y) ->
  get_stone_at (fst (place_stone b x y color)) x' y' = get_stone_at b x' y'.
Proof.
  intros Hne. unfold place_stone.
  destruct (is_valid_move b x y); [ | reflexivity ].
  unfold get_stone_at. cbn [fst stones]. rewrite find_app_last.
  assert (Hnew : at_coord x y (mkStone x y color) = true)
    by (apply at_coord_true; split; reflexivity).
  rewrite (at_coord_other x y x' y' _ Hne Hnew).
  now destruct (find (at_coord x' y') (stones b)).
Qed.

Lemma eval_arm_count (b : Board) (color : Color) (cell : Z -> Z * Z)
      (steps : list Z) :
  forall t, count (eval_arm b color cell steps t)
            = win_arm b color cell steps (count t).
Proof.
  induction steps as [|i steps IH]; intros t; [ reflexivity | ].
  rewrite eval_arm_cons, win_arm_cons.
  destruct (matches b color (cell i)).
  - now rewrite IH.
  - now destruct (get_stone_at b (fst (cell i)) (snd (cell i))).
Qed.

Lemma win_arm_ext (b b' : Board) (color : Color) (cell cell' : Z -> Z * Z)
      (steps : list Z) :
  (forall i, In i steps -> matches b color (cell i) = matches b' color (cell' i)) ->
  forall k, win_arm b color cell steps k = win_arm b' color cell' steps k.
Proof.
  induction steps as [|i steps IH]; intros H k; [ reflexivity | ].
  rewrite !win_arm_cons, <- (H i (or_introl eq_refl)).
  destruct (matches b color (cell i)); [ | reflexivity ].
  apply IH. intros j Hj. apply H. now right.
Qed.

(** The count of an axis at a cell is the count [check_win] reaches for a
    stone placed there. *)
Lemma axis_count_win_count (b : Board) (x y : Z) (color : Color) (dir : Z * Z) :
  In dir directions ->
  count (axis_tally b x y color dir)
  = win_count (fst (place_stone b x y color)) (mkStone x y color) dir.
Proof.
  intros Hdir. destruct dir as [dx dy]. unfold axis_tally, win_count.
  rewrite !eval_arm_count. cbn [count stone_x stone_y stone_color].
  assert (Hstep : forall i, In i range_1_5 -> 1 <= i <= 4)
    by (unfold range_1_5; simpl; intros i Hi; lia).
  assert (Hd : dx = 1 \/ dy = 1)
    by (unfold directions in Hdir; simpl in Hdir;
        destruct Hdir as [H | [H | [H | [H | []]]]]; inversion H; auto).
  rewrite (win_arm_ext b (fst (place_stone b x y color)) color
             (fun i => (x + i * dx, y + i * dy))
             (fun i => (x + dx * i, y + dy * i))).
  - apply win_arm_ext. intros i Hi. apply Hstep in Hi.
    unfold matches. cbn [fst snd].
    replace (x - i * dx) with (x - dx * i) by ring.
    replace (y - i * dy) with (y - dy * i) by ring.
    rewrite lookup_place_other; [ reflexivity | ].
    intros H. inversion H. destruct Hd; subst; lia.
  - intros i Hi. apply Hstep in Hi. unfold matches. cbn [fst snd].
    replace (x + i * dx) with (x + dx * i) by ring.
    replace (y + i * dy) with (y + dy * i) by ring.
    rewrite lookup_place_other; [ reflexivity | ].
    intros H. inversion H. destruct Hd; subst; lia.
Qed.

Lemma pattern_score_bounds (d : Difficulty) (t : Tally) :
  (5 <= count t -> pattern_score (weights d) t = w5 (weights d)) /\
  (count t < 5 -> 0 <= pattern_score (weights d) t <= 2 * w4 (weights d)).
Proof.
  unfold pattern_score. split; intros H.
  - destruct (count t >=? 5) eqn:E; trivial.
    rewrite Z.geb_leb in E. apply Z.leb_gt in E. lia.
  - destruct (count t >=? 5) eqn:E;
      [ rewrite Z.geb_leb in E; apply Z.leb_le in E; lia | ].
    destruct d; cbn [weights w2 w3 w4 w5];
      repeat match goal with
             | |- context [if ?c then _ else _] => destruct c
             end; lia.
Qed.

Lemma evaluate_position_axes (d : Difficulty) (x y : Z) (b : Board) (color : Color) :
  _evaluate_position d x y b color
  = pattern_score (weights d) (axis_tally b x y color (1, 0))
    + pattern_score (weights d) (axis_tally b x y color (0, 1))
    + pattern_score (weights d) (axis_tally b x y color (1, 1))
    + pattern_score (weights d) (axis_tally b x y color (1, -1)).
Proof. unfold _evaluate_position, directions. cbn [fold_left]. ring. Qed.

(** Four pattern scores add up to the weight of a five exactly when one
    of the tallies counts five or more. *)
Lemma five_weight_sum (d : Difficulty) (t1 t2 t3 t4 : Tally) :
  w5 (weights d)
  <= pattern_score (weights d) t1 + pattern_score (weights d) t2
     + pattern_score (weights d) t3 + pattern_score (weights d) t4
  <-> 5 <= count t1 \/ 5 <= count t2 \/ 5 <= count t3 \/ 5 <= count t4.
Proof.
  destruct (pattern_score_bounds d t1) as [A1 B1].
  destruct (pattern_score_bounds d t2) as [A2 B2].
  destruct (pattern_score_bounds d t3) as [A3 B3].
  destruct (pattern_score_bounds d t4) as [A4 B4].
  assert (Hw : 8 * w4 (weights d) < w5 (weights d) /\ 0 < w4 (weights d))
    by (destruct d; simpl; lia).
  generalize dependent (pattern_score (weights d) t1).
  generalize dependent (pattern_score (weights d) t2).
  generalize dependent (pattern_score (weights d) t3).
  generalize dependent (pattern_score (weights d) t4).
  generalize dependent (w5 (weights d)).
  generalize dependent (w4 (weights d)).
  intros. lia.
Qed.

(** The score of a cell reaches the weight of a five exactly when some
    axis counts five or more there. *)
Lemma evaluate_position_five_axis (d : Difficulty) (x y : Z) (b : Board)
      (color : Color) :
  w5 (weights d) <= _evaluate_position d x y b color
  <-> exists dir, In dir directions /\ 5 <= count (axis_tally b x y color dir).
Proof.
  rewrite evaluate_position_axes, five_weight_sum. unfold directions. split.
  - intros [H | [H | [H | H]]];
      [ exists (1, 0) | exists (0, 1) | exists (1, 1) | exists (1, -1) ];
      (split; [ simpl; tauto | exact H ]).
  - intros [dir [Hdir H]]. simpl in Hdir.
    destruct Hdir as [<- | [<- | [<- | [<- | []]]]]; tauto.
Qed.

(** X8.  The evaluator scores a cell at least the weight of a five exactly when
    a stone of that colour placed on the cell wins by [check_win]. *)
Theorem evaluate_position_detects_win (d : Difficulty) (b : Board) (x y : Z)
        (color : Color) :
  w5 (weights d) <= _evaluate_position d x y b color
  <-> check_win (fst (place_stone b x y color)) (Some (mkStone x y color)) = true.
Proof.
  rewrite evaluate_position_five_axis. unfold check_win.
  rewrite existsb_exists.
  split; intros [dir [Hdir H]]; exists dir; split; trivial.
  - rewrite <- (axis_count_win_count b x y color dir Hdir).
    rewrite Z.geb_leb. now apply Z.leb_le.
  - rewrite (axis_count_win_count b x y color dir Hdir).
    rewrite Z.geb_leb in H. now apply Z.leb_le.
Qed.

Lemma eval_arm_bounds (b : Board) (color : Color) (cell : Z -> Z * Z) (t : Tally) :
  let t' := eval_arm b color cell range_1_5 t in
  count t <= count t' <= count t + 4 /\
  open_ends t <= open_ends t' /\ blocks t <= blocks t' /\
  open_ends t' + blocks t' <= open_ends t + blocks t + 1.
Proof.
  cbv zeta. unfold range_1_5. rewrite !eval_arm_cons.
  repeat match goal with
         | |- context [if ?c then _ else _] => destruct c
         | |- context [match get_stone_at ?b ?x ?y with _ => _ end] =>
             destruct (get_stone_at b x y)
         end; simpl; lia.
Qed.

(** X9.  On every axis the evaluator counts between 1 and 9 stones and at most
    two ends, open or blocked; the score of a cell lies between 0 and four
    times the weight of a five. *)
Theorem evaluate_position_bounds (d : Difficulty) (b : Board) (x y : Z)
        (color : Color) :
  (forall dir, let t := axis_tally b x y color dir in
               1 <= count t <= 9 /\ 0 <= open_ends t /\ 0 <= blocks t /\
               open_ends t + blocks t <= 2) /\
  0 <= _evaluate_position d x y b color <= 4 * w5 (weights d).
Proof.
  split.
  - intros [dx dy]. cbv zeta. unfold axis_tally.
    pose proof (eval_arm_bounds b color (fun i => (x + i * dx, y + i * dy))
                  (mkTally 1 0 0)) as H1.
    pose proof (eval_arm_bounds b color (fun i => (x - i * dx, y - i * dy))
                  (eval_arm b color (fun i => (x + i * dx, y + i * dy))
                     range_1_5 (mkTally 1 0 0))) as H2.
    cbv zeta in H1, H2. cbn [count open_ends blocks] in H1. lia.
  - rewrite evaluate_position_axes.
    assert (Hb : forall t, 0 <= pattern_score (weights d) t <= w5 (weights d)).
    { intros t. destruct (pattern_score_bounds d t) as [A B].
      assert (Hw : 2 * w4 (weights d) <= w5 (weights d) /\ 0 < w5 (weights d))
        by (destruct d; simpl; lia).
      destruct (Z_lt_le_dec (count t) 5) as [L|G].
      - apply B in L. lia.
      - rewrite (A G). lia. }
    pose proof (Hb (axis_tally b x y color (1, 0))).
    pose proof (Hb (axis_tally b x y color (0, 1))).
    pose proof (Hb (axis_tally b x y color (1, 1))).
    pose proof (Hb (axis_tally b x y color (1, -1))).
    lia.
Qed.

(** ** Neighbours and candidates *)

(** X10.  [_has_neighbor] holds exactly when some other cell of the grid within
    the Chebyshev distance holds a stone. *)
Theorem has_neighbor_spec (b : Board) (x y distance : Z) :
  _has_neighbor b x y distance = true
  <-> exists nx ny, near distance x y nx ny /\ in_bounds b nx ny /\
                    occupied b nx ny.
Proof.
  unfold _has_neighbor, near, in_bounds. rewrite existsb_exists. split.
  - intros [dx [Hdx H]]. apply existsb_exists in H.
    destruct H as [dy [Hdy H]]. apply in_range in Hdx, Hdy.
    destruct ((dx =? 0) && (dy =? 0)) eqn:E0; [ discriminate | ].
    destruct ((0 <=? x + dx) && (x + dx <? size b)
              && (0 <=? y + dy) && (y + dy <? size b)) eqn:Eb;
      [ | discriminate ].
    destruct (get_stone_at b (x + dx) (y + dy)) as [s|] eqn:Es;
      [ | discriminate ].
    exists (x + dx), (y + dy).
    apply andb_false_iff in E0. rewrite !Z.eqb_neq in E0.
    rewrite !andb_true_iff, !Z.leb_le, !Z.ltb_lt in Eb.
    apply get_stone_at_Some in Es.
    repeat split; try lia.
    + intros Heq. inversion Heq. lia.
    + exists s. tauto.
  - intros [nx [ny [[Hx [Hy Hne]] [[Hbx Hby] Ho]]]].
    exists (nx - x). split; [ apply in_range; lia | ].
    apply existsb_exists. exists (ny - y). split; [ apply in_range; lia | ].
    replace (x + (nx - x)) with nx by ring.
    replace (y + (ny - y)) with ny by ring.
    destruct ((nx - x =? 0) && (ny - y =? 0)) eqn:E0.
    + apply andb_true_iff in E0. rewrite !Z.eqb_eq in E0.
      exfalso. apply Hne. f_equal; lia.
    + assert (Hb : (0 <=? nx) && (nx <? size b) && (0 <=? ny) && (ny <? size b)
                   = true)
        by (rewrite !andb_true_iff, !Z.leb_le, !Z.ltb_lt; lia).
      rewrite Hb.
      destruct (get_stone_at b nx ny) eqn:Es; trivial.
      apply get_stone_at_None in Es. contradiction.
Qed.

Lemma in_candidates (b : Board) (x y : Z) :
  In (x, y) (candidates b)
  <-> is_valid_move b x y = true /\ _has_neighbor b x y 2 = true.
Proof.
  unfold candidates. rewrite filter_In, in_all_cells. cbn [fst snd].
  rewrite andb_true_iff. split; [ tauto | ].
  intros [Hv Hn]. split; [ | tauto ].
  apply is_valid_move_spec in Hv. tauto.
Qed.

Lemma in_get_valid_moves (d : Difficulty) (b : Board) (x y : Z) :
  In (x, y) (_get_valid_moves d b)
  <-> is_valid_move b x y = true /\ _has_neighbor b x y 2 = true.
Proof.
  rewrite <- in_candidates, get_valid_moves_sorted.
  split; apply Permutation_in;
    [ | apply Permutation_sym ]; apply sorted_reverse_perm.
Qed.

(** X11.  [_get_valid_moves] lists each candidate once, and a cell is listed
    exactly when it is on the grid, holds no stone, and [_has_neighbor]
    finds a stone within distance 2 of it. *)
Theorem get_valid_moves_members (d : Difficulty) (b : Board) :
  NoDup (_get_valid_moves d b) /\
  forall x y,
    In (x, y) (_get_valid_moves d b)
    <-> in_bounds b x y /\ ~ occupied b x y /\ _has_neighbor b x y 2 = true.
Proof.
  split.
  - rewrite get_valid_moves_sorted.
    apply (Permutation_NoDup (Permutation_sym (sorted_reverse_perm _ _))).
    unfold candidates. apply NoDup_filter, all_cells_NoDup.
  - intros x y. rewrite in_get_valid_moves, is_valid_move_spec. tauto.
Qed.

(** ** The search restores the board *)

Lemma alpha_beta_unfold (d : Difficulty) (depth : nat) (b : Board)
      (alpha beta : Number) (is_maximizing : bool) :
  _alpha_beta d (S depth) b alpha beta is_maximizing
  = if is_game_over b then (_evaluate_board d b, b)
    else if is_maximizing
         then max_loop (_alpha_beta d depth) beta (_get_valid_moves d b)
                       b alpha NegInf
         else min_loop (_alpha_beta d depth) alpha (_get_valid_moves d b)
                       b beta PosInf.
Proof. reflexivity. Qed.

Lemma is_valid_move_same_cells (b1 b2 : Board) (x y : Z) :
  size b1 = size b2 -> stones b1 = stones b2 ->
  is_valid_move b1 x y = is_valid_move b2 x y.
Proof. intros Hs Hl. unfold is_valid_move. now rewrite Hs, Hl. Qed.

(** A trial placement on a board with the cells of [b] is the placement
    on [b] itself. *)
Lemma trial_place (b bd : Board) (x y : Z) (color : Color) :
  is_valid_move b x y = true -> forget_last_move bd = forget_last_move b ->
  fst (place_stone bd x y color) = fst (place_stone b x y color).
Proof.
  intros Hv Hsame. unfold forget_last_move in Hsame.
  inversion Hsame as [[Hs Hl]].
  rewrite (place_stone_valid b x y color Hv).
  rewrite (place_stone_valid bd x y color)
    by (now rewrite (is_valid_move_same_cells bd b)).
  simpl. now rewrite Hs, Hl.
Qed.

(** Undoing the trial after a search that kept the cells leaves the cells
    of [b] and no last move. *)
Lemma trial_undo (b r : Board) (x y : Z) (color : Color) :
  is_valid_move b x y = true ->
  (r = fst (place_stone b x y color)
   \/ r = forget_last_move (fst (place_stone b x y color))) ->
  remove_stone r x y = forget_last_move b.
Proof.
  intros Hv Hr.
  pose proof (remove_after_place b x y color Hv) as Hrem.
  destruct Hr as [-> | ->]; [ exact Hrem | ].
  rewrite (place_stone_valid b x y color Hv) in *. cbn [fst] in *.
  unfold remove_stone, forget_last_move in *. cbn [last_move stones size] in *.
  rewrite !Z.eqb_refl in Hrem. cbn [andb] in Hrem. exact Hrem.
Qed.

Lemma forget_last_move_twice (b : Board) :
  forget_last_move (forget_last_move b) = forget_last_move b.
Proof. reflexivity. Qed.

Lemma all_valid_tail (b : Board) (p : Z * Z) (moves : list (Z * Z)) :
  all_valid b (p :: moves) -> all_valid b moves.
Proof. intros H x y Hin. apply H. now right. Qed.

Lemma max_loop_board (rec : Board -> Number -> Number -> bool -> Number * Board)
      (beta : Number) (b : Board) :
  keeps_cells rec ->
  forall moves bd alpha acc,
    all_valid b moves -> forget_last_move bd = forget_last_move b ->
    snd (max_loop rec beta moves bd alpha acc)
    = match moves with [] => bd | _ :: _ => forget_last_move b end.
Proof.
  intros Hrec. induction moves as [|[x y] rest IH]; intros bd alpha acc Hv Hbd;
    [ reflexivity | ].
  cbn [max_loop].
  rewrite (trial_place b bd x y WHITE (Hv x y (or_introl eq_refl)) Hbd).
  pose proof (Hrec (fst (place_stone b x y WHITE)) alpha beta false) as Hr.
  destruct (rec (fst (place_stone b x y WHITE)) alpha beta false) as [e r].
  cbn [snd] in Hr.
  rewrite (trial_undo b r x y WHITE (Hv x y (or_introl eq_refl)) Hr).
  destruct (num_leb beta (py_max alpha e)); [ reflexivity | ].
  rewrite (IH _ _ _ (all_valid_tail b _ _ Hv) (forget_last_move_twice b)).
  now destruct rest.
Qed.

Lemma min_loop_board (rec : Board -> Number -> Number -> bool -> Number * Board)
      (alpha : Number) (b : Board) :
  keeps_cells rec ->
  forall moves bd beta acc,
    all_valid b moves -> forget_last_move bd = forget_last_move b ->
    snd (min_loop rec alpha moves bd beta acc)
    = match moves with [] => bd | _ :: _ => forget_last_move b end.
Proof.
  intros Hrec. induction moves as [|[x y] rest IH]; intros bd beta acc Hv Hbd;
    [ reflexivity | ].
  cbn [min_loop].
  rewrite (trial_place b bd x y BLACK (Hv x y (or_introl eq_refl)) Hbd).
  pose proof (Hrec (fst (place_stone b x y BLACK)) alpha beta true) as Hr.
  destruct (rec (fst (place_stone b x y BLACK)) alpha beta true) as [e r].
  cbn [snd] in Hr.
  rewrite (trial_undo b r x y BLACK (Hv x y (or_introl eq_refl)) Hr).
  destruct (num_leb (py_min beta e) alpha); [ reflexivity | ].
  rewrite (IH _ _ _ (all_valid_tail b _ _ Hv) (forget_last_move_twice b)).
  now destruct rest.
Qed.

Lemma get_valid_moves_all_valid (d : Difficulty) (b : Board) :
  all_valid b (_get_valid_moves d b).
Proof. intros x y Hin. now apply in_get_valid_moves in Hin. Qed.

Lemma alpha_beta_board (d : Difficulty) (depth : nat) (b : Board)
      (alpha beta : Number) (m : bool) :
  snd (_alpha_beta d depth b alpha beta m)
  = match depth with
    | O => b
    | S _ => if is_game_over b then b
             else match _get_valid_moves d b with
                  | [] => b
                  | _ :: _ => forget_last_move b
                  end
    end.
Proof.
  revert b alpha beta m. induction depth as [|depth IH]; intros b alpha beta m;
    [ reflexivity | ].
  assert (Hrec : keeps_cells (_alpha_beta d depth)).
  { intros bd a c m'. rewrite IH. destruct depth; [ now left | ].
    destruct (is_game_over bd); [ now left | ].
    destruct (_get_valid_moves d bd); [ now left | now right ]. }
  rewrite alpha_beta_unfold.
  destruct (is_game_over b); [ reflexivity | ].
  destruct m.
  - now rewrite (max_loop_board _ beta b Hrec _ _ _ _
                   (get_valid_moves_all_valid d b) eq_refl).
  - now rewrite (min_loop_board _ alpha b Hrec _ _ _ _
                   (get_valid_moves_all_valid d b) eq_refl).
Qed.



(** ** The order of search values *)

Lemma bound_pos (a : Number) : 1 <= bound a.
Proof. destruct a; simpl; lia. Qed.

Lemma num_ltb_enc (L : Z) (a b : Number) :
  bound a <= L -> bound b <= L -> num_ltb a b = (enc L a <? enc L b).
Proof.
  destruct a, b; simpl; intros Ha Hb; try reflexivity; symmetry;
    try (apply Z.ltb_lt; lia); try (apply Z.ltb_ge; lia).
Qed.

Lemma num_leb_enc (L : Z) (a b : Number) :
  bound a <= L -> bound b <= L -> num_leb a b = (enc L a <=? enc L b).
Proof.
  intros Ha Hb. unfold num_leb. rewrite (num_ltb_enc L) by assumption. lia.
Qed.

Lemma enc_inj (L : Z) (a b : Number) :
  bound a <= L -> bound b <= L -> enc L a = enc L b -> a = b.
Proof.
  destruct a, b; simpl; intros Ha Hb H; try reflexivity; try lia.
  now f_equal.
Qed.

Lemma enc_range (L : Z) (a : Number) :
  bound a <= L -> - L <= enc L a <= L.
Proof. destruct a; simpl; lia. Qed.

Lemma py_max_enc (L : Z) (a b : Number) :
  bound a <= L -> bound b <= L ->
  enc L (py_max a b) = Z.max (enc L a) (enc L b) /\ bound (py_max a b) <= L.
Proof.
  intros Ha Hb. unfold py_max. rewrite (num_ltb_enc L) by assumption.
  destruct (enc L a <? enc L b) eqn:E; split; trivial; lia.
Qed.

Lemma py_min_enc (L : Z) (a b : Number) :
  bound a <= L -> bound b <= L ->
  enc L (py_min a b) = Z.min (enc L a) (enc L b) /\ bound (py_min a b) <= L.
Proof.
  intros Ha Hb. unfold py_min. rewrite (num_ltb_enc L) by assumption.
  destruct (enc L b <? enc L a) eqn:E; split; trivial; lia.
Qed.

Lemma num_leb_trans (a b c : Number) :
  num_leb a b = true -> num_leb b c = true -> num_leb a c = true.
Proof.
  pose proof (bound_pos a). pose proof (bound_pos b). pose proof (bound_pos c).
  rewrite !(num_leb_enc (bound a + bound b + bound c)) by lia. lia.
Qed.

Lemma py_max_ge_l (a b : Number) : num_leb a (py_max a b) = true.
Proof.
  pose proof (bound_pos a). pose proof (bound_pos b).
  destruct (py_max_enc (bound a + bound b) a b) as [M C]; try lia.
  rewrite (num_leb_enc (bound a + bound b)) by lia. lia.
Qed.

Lemma py_min_le_l (a b : Number) : num_leb (py_min a b) a = true.
Proof.
  pose proof (bound_pos a). pose proof (bound_pos b).
  destruct (py_min_enc (bound a + bound b) a b) as [M C]; try lia.
  rewrite (num_leb_enc (bound a + bound b)) by lia. lia.
Qed.

Lemma py_max_neginf_r (a : Number) : py_max a NegInf = a.
Proof. now destruct a. Qed.

Lemma py_min_posinf_r (a : Number) : py_min a PosInf = a.
Proof. now destruct a. Qed.

Lemma fold_max_ge {A : Type} (f : A -> Number) (l : list A) :
  forall init,
    num_leb init (fold_left (fun acc p => py_max acc (f p)) l init) = true.
Proof.
  induction l as [|p l IH]; intros init; simpl.
  - apply num_leb_refl.
  - apply (num_leb_trans _ (py_max init (f p))); [ apply py_max_ge_l | apply IH ].
Qed.

Lemma fold_min_le {A : Type} (f : A -> Number) (l : list A) :
  forall init,
    num_leb (fold_left (fun acc p => py_min acc (f p)) l init) init = true.
Proof.
  induction l as [|p l IH]; intros init; simpl.
  - apply num_leb_refl.
  - apply (num_leb_trans _ (py_min init (f p))); [ apply IH | apply py_min_le_l ].
Qed.

Ltac number_bounds L :=
  repeat match goal with
         | a : Number |- _ =>
             lazymatch goal with
             | _ : 1 <= bound a |- _ => fail
             | _ => pose proof (bound_pos a)
             end
         end;
  repeat match goal with
         | a : Number |- _ =>
             lazymatch goal with
             | _ : bound a <= L |- _ => fail
             | _ => assert (bound a <= L) by (unfold L; lia)
             end
         end.

Ltac order_by_enc L :=
  repeat split; intros; try (apply (enc_inj L); try assumption); lia.

(** One step of the maximizing loop: a cutoff returns a value at or above
    beta that the true maximum dominates; otherwise the loop invariant
    carries over. *)
Lemma max_step (alpha0 acc mt e v beta : Number) :
  num_ltb (py_max alpha0 acc) beta = true ->
  max_inv alpha0 acc mt ->
  sound_window v e (py_max alpha0 acc) beta ->
  (num_leb beta (py_max (py_max alpha0 acc) e) = true ->
   num_leb beta (py_max acc e) = true /\
   num_leb (py_max acc e) (py_max mt v) = true) /\
  (num_leb beta (py_max (py_max alpha0 acc) e) = false ->
   py_max (py_max alpha0 acc) e = py_max alpha0 (py_max acc e) /\
   num_ltb (py_max alpha0 (py_max acc e)) beta = true /\
   max_inv alpha0 (py_max acc e) (py_max mt v)).
Proof.
  unfold max_inv, sound_window.
  set (L := bound alpha0 + bound acc + bound mt + bound e + bound v + bound beta).
  number_bounds L.
  destruct (py_max_enc L alpha0 acc) as [M1 C1]; try assumption.
  destruct (py_max_enc L acc e) as [M2 C2]; try assumption.
  destruct (py_max_enc L mt v) as [M3 C3]; try assumption.
  destruct (py_max_enc L (py_max alpha0 acc) e) as [M4 C4]; try assumption.
  destruct (py_max_enc L alpha0 (py_max acc e)) as [M5 C5]; try assumption.
  rewrite !(num_ltb_enc L), !(num_leb_enc L) by assumption.
  intros G1 [G2a G2b] [G3a [G3b G3c]].
  pose proof (fun h => f_equal (enc L) (G2b h)) as G2b'.
  pose proof (fun h h' => f_equal (enc L) (G3b h h')) as G3b'.
  clear G2b G3b. order_by_enc L.
Qed.

Lemma max_cutoff (alpha0 acc r m V beta : Number) :
  num_ltb (py_max alpha0 acc) beta = true ->
  num_leb beta r = true -> num_leb r m = true -> num_leb m V = true ->
  sound_window V r alpha0 beta.
Proof.
  unfold sound_window.
  set (L := bound alpha0 + bound acc + bound r + bound m + bound V + bound beta).
  number_bounds L.
  destruct (py_max_enc L alpha0 acc) as [M1 C1]; try assumption.
  rewrite !(num_ltb_enc L), !(num_leb_enc L) by assumption.
  intros G1 G2 G3 G4. order_by_enc L.
Qed.

Lemma max_end (alpha0 acc mt beta : Number) :
  num_ltb (py_max alpha0 acc) beta = true -> max_inv alpha0 acc mt ->
  sound_window mt acc alpha0 beta.
Proof.
  unfold sound_window, max_inv.
  set (L := bound alpha0 + bound acc + bound mt + bound beta).
  number_bounds L.
  destruct (py_max_enc L alpha0 acc) as [M1 C1]; try assumption.
  rewrite !(num_ltb_enc L), !(num_leb_enc L) by assumption.
  intros G1 [G2a G2b].
  pose proof (fun h => f_equal (enc L) (G2b h)) as G2b'.
  clear G2b. order_by_enc L.
Qed.

(** The same step for the minimizing loop. *)
Lemma min_step (beta0 acc mt e v alpha : Number) :
  num_ltb alpha (py_min beta0 acc) = true ->
  min_inv beta0 acc mt ->
  sound_window v e alpha (py_min beta0 acc) ->
  (num_leb (py_min (py_min beta0 acc) e) alpha = true ->
   num_leb (py_min acc e) alpha = true /\
   num_leb (py_min mt v) (py_min acc e) = true) /\
  (num_leb (py_min (py_min beta0 acc) e) alpha = false ->
   py_min (py_min beta0 acc) e = py_min beta0 (py_min acc e) /\
   num_ltb alpha (py_min beta0 (py_min acc e)) = true /\
   min_inv beta0 (py_min acc e) (py_min mt v)).
Proof.
  unfold min_inv, sound_window.
  set (L := bound beta0 + bound acc + bound mt + bound e + bound v + bound alpha).
  number_bounds L.
  destruct (py_min_enc L beta0 acc) as [M1 C1]; try assumption.
  destruct (py_min_enc L acc e) as [M2 C2]; try assumption.
  destruct (py_min_enc L mt v) as [M3 C3]; try assumption.
  destruct (py_min_enc L (py_min beta0 acc) e) as [M4 C4]; try assumption.
  destruct (py_min_enc L beta0 (py_min acc e)) as [M5 C5]; try assumption.
  rewrite !(num_ltb_enc L), !(num_leb_enc L) by assumption.
  intros G1 [G2a G2b] [G3a [G3b G3c]].
  pose proof (fun h => f_equal (enc L) (G2b h)) as G2b'.
  pose proof (fun h h' => f_equal (enc L) (G3b h h')) as G3b'.
  clear G2b G3b. order_by_enc L.
Qed.

Lemma min_cutoff (beta0 acc r m V alpha : Number) :
  num_ltb alpha (py_min beta0 acc) = true ->
  num_leb r alpha = true -> num_leb m r = true -> num_leb V m = true ->
  sound_window V r alpha beta0.
Proof.
  unfold sound_window.
  set (L := bound beta0 + bound acc + bound r + bound m + bound V + bound alpha).
  number_bounds L.
  destruct (py_min_enc L beta0 acc) as [M1 C1]; try assumption.
  rewrite !(num_ltb_enc L), !(num_leb_enc L) by assumption.
  intros G1 G2 G3 G4. order_by_enc L.
Qed.

Lemma min_end (beta0 acc mt alpha : Number) :
  num_ltb alpha (py_min beta0 acc) = true -> min_inv beta0 acc mt ->
  sound_window mt acc alpha beta0.
Proof.
  unfold sound_window, min_inv.
  set (L := bound beta0 + bound acc + bound mt + bound alpha).
  number_bounds L.
  destruct (py_min_enc L beta0 acc) as [M1 C1]; try assumption.
  rewrite !(num_ltb_enc L), !(num_leb_enc L) by assumption.
  intros G1 [G2a G2b].
  pose proof (fun h => f_equal (enc L) (G2b h)) as G2b'.
  clear G2b. order_by_enc L.
Qed.

(** ** Pruning does not change the value *)

Lemma sound_window_exact (v alpha beta : Number) : sound_window v v alpha beta.
Proof. unfold sound_window. repeat split; intros; apply num_leb_refl. Qed.

Lemma max_loop_value
      (rec : Board -> Number -> Number -> bool -> Number * Board)
      (val : Board -> Number) (alpha0 beta : Number) (b : Board) :
  keeps_cells rec ->
  (forall bd a, num_ltb a beta = true ->
                sound_window (val bd) (fst (rec bd a beta false)) a beta) ->
  forall moves bd acc mt,
    all_valid b moves -> forget_last_move bd = forget_last_move b ->
    num_ltb (py_max alpha0 acc) beta = true -> max_inv alpha0 acc mt ->
    sound_window
      (fold_left
         (fun m p => py_max m (val (fst (place_stone b (fst p) (snd p) WHITE))))
         moves mt)
      (fst (max_loop rec beta moves bd (py_max alpha0 acc) acc)) alpha0 beta.
Proof.
  intros Hkeep Hrec.
  induction moves as [|[x y] rest IH]; intros bd acc mt Hv Hbd Hlt Hinv.
  - simpl. now apply max_end.
  - cbn [max_loop fold_left fst snd].
    rewrite (trial_place b bd x y WHITE (Hv x y (or_introl eq_refl)) Hbd).
    pose proof (Hkeep (fst (place_stone b x y WHITE)) (py_max alpha0 acc)
                      beta false) as Hr.
    pose proof (Hrec (fst (place_stone b x y WHITE)) (py_max alpha0 acc) Hlt)
      as Hs.
    destruct (rec (fst (place_stone b x y WHITE)) (py_max alpha0 acc) beta false)
      as [e r].
    cbn [fst snd] in Hr, Hs.
    rewrite (trial_undo b r x y WHITE (Hv x y (or_introl eq_refl)) Hr).
    destruct (max_step alpha0 acc mt e _ beta Hlt Hinv Hs) as [Hcut Hgo].
    destruct (num_leb beta (py_max (py_max alpha0 acc) e)) eqn:E.
    + destruct (Hcut eq_refl) as [H1 H2]. cbn [fst].
      apply (max_cutoff alpha0 acc _ _ _ beta Hlt H1 H2).
      apply fold_max_ge.
    + destruct (Hgo eq_refl) as [H1 [H2 H3]]. rewrite H1.
      apply IH; trivial. now apply (all_valid_tail b (x, y)).
Qed.

Lemma min_loop_value
      (rec : Board -> Number -> Number -> bool -> Number * Board)
      (val : Board -> Number) (alpha beta0 : Number) (b : Board) :
  keeps_cells rec ->
  (forall bd c, num_ltb alpha c = true ->
                sound_window (val bd) (fst (rec bd alpha c true)) alpha c) ->
  forall moves bd acc mt,
    all_valid b moves -> forget_last_move bd = forget_last_move b ->
    num_ltb alpha (py_min beta0 acc) = true -> min_inv beta0 acc mt ->
    sound_window
      (fold_left
         (fun m p => py_min m (val (fst (place_stone b (fst p) (snd p) BLACK))))
         moves mt)
      (fst (min_loop rec alpha moves bd (py_min beta0 acc) acc)) alpha beta0.
Proof.
  intros Hkeep Hrec.
  induction moves as [|[x y] rest IH]; intros bd acc mt Hv Hbd Hlt Hinv.
  - simpl. now apply min_end.
  - cbn [min_loop fold_left fst snd].
    rewrite (trial_place b bd x y BLACK (Hv x y (or_introl eq_refl)) Hbd).
    pose proof (Hkeep (fst (place_stone b x y BLACK)) alpha
                      (py_min beta0 acc) true) as Hr.
    pose proof (Hrec (fst (place_stone b x y BLACK)) (py_min beta0 acc) Hlt)
      as Hs.
    destruct (rec (fst (place_stone b x y BLACK)) alpha (py_min beta0 acc) true)
      as [e r].
    cbn [fst snd] in Hr, Hs.
    rewrite (trial_undo b r x y BLACK (Hv x y (or_introl eq_refl)) Hr).
    destruct (min_step beta0 acc mt e _ alpha Hlt Hinv Hs) as [Hcut Hgo].
    destruct (num_leb (py_min (py_min beta0 acc) e) alpha) eqn:E.
    + destruct (Hcut eq_refl) as [H1 H2]. cbn [fst].
      apply (min_cutoff beta0 acc _ _ _ alpha Hlt H1 H2).
      apply fold_min_le.
    + destruct (Hgo eq_refl) as [H1 [H2 H3]]. rewrite H1.
      apply IH; trivial. now apply (all_valid_tail b (x, y)).
Qed.

Lemma alpha_beta_keeps_cells (d : Difficulty) (depth : nat) :
  keeps_cells (_alpha_beta d depth).
Proof.
  intros bd a c m. rewrite alpha_beta_board. destruct depth; [ now left | ].
  destruct (is_game_over bd); [ now left | ].
  destruct (_get_valid_moves d bd); [ now left | now right ].
Qed.

Lemma alpha_beta_window (d : Difficulty) (depth : nat) :
  forall b alpha beta m,
    num_ltb alpha beta = true ->
    sound_window (minimax d depth b m)
                 (fst (_alpha_beta d depth b alpha beta m)) alpha beta.
Proof.
  induction depth as [|depth IH]; intros b alpha beta m Hlt.
  - apply sound_window_exact.
  - rewrite alpha_beta_unfold. cbn [minimax].
    destruct (is_game_over b); [ apply sound_window_exact | ].
    destruct m.
    + rewrite <- (py_max_neginf_r alpha) at 1.
      apply (max_loop_value (_alpha_beta d depth)
               (fun bd => minimax d depth bd false) alpha beta b).
      * apply alpha_beta_keeps_cells.
      * intros bd a Ha. now apply IH.
      * apply get_valid_moves_all_valid.
      * reflexivity.
      * now rewrite py_max_neginf_r.
      * split; intros H; [ reflexivity | now destruct alpha ].
    + rewrite <- (py_min_posinf_r beta) at 1.
      apply (min_loop_value (_alpha_beta d depth)
               (fun bd => minimax d depth bd true) alpha beta b).
      * apply alpha_beta_keeps_cells.
      * intros bd c Hc. now apply IH.
      * apply get_valid_moves_all_valid.
      * reflexivity.
      * now rewrite py_min_posinf_r.
      * split; intros H; [ reflexivity | now destruct beta ].
Qed.

(** X13.  Pruning is sound.  Under a window alpha < beta the value returned by
    [_alpha_beta] bounds the plain minimax value from above when it is at
    most alpha, from below when it is at least beta, and equals it when it
    lies strictly between; with the full window the search returns the
    minimax value itself. *)
Theorem alpha_beta_is_minimax (d : Difficulty) (depth : nat) (b : Board)
        (m : bool) :
  (forall alpha beta, num_ltb alpha beta = true ->
     sound_window (minimax d depth b m)
                  (fst (_alpha_beta d depth b alpha beta m)) alpha beta) /\
  fst (_alpha_beta d depth b NegInf PosInf m) = minimax d depth b m.
Proof.
  split; [ intros alpha beta; apply alpha_beta_window | ].
  destruct (alpha_beta_window d depth b NegInf PosInf m eq_refl)
    as [Hlow [Hmid Hhigh]].
  destruct (fst (_alpha_beta d depth b NegInf PosInf m)) as [| z |] eqn:E.
  - specialize (Hlow eq_refl). now destruct (minimax d depth b m).
  - symmetry. now apply Hmid.
  - specialize (Hhigh eq_refl). now destruct (minimax d depth b m).
Qed.

Lemma alpha_beta_is_minimax_witness :
  sound_window (minimax EASY 1 one_black_board true)
               (fst (_alpha_beta EASY 1 one_black_board (Int 0) (Int 100) true))
               (Int 0) (Int 100).
Proof.
  apply (proj1 (alpha_beta_is_minimax EASY 1 one_black_board true)).
  reflexivity.
Defined.

(** ** The move chosen by [get_move] *)

Lemma num_ltb_irrefl (a : Number) : num_ltb a a = false.
Proof. destruct a; simpl; trivial. apply Z.ltb_irrefl. Qed.

Lemma num_ltb_trans (a b c : Number) :
  num_ltb a b = true -> num_ltb b c = true -> num_ltb a c = true.
Proof.
  pose proof (bound_pos a). pose proof (bound_pos b). pose proof (bound_pos c).
  rewrite !(num_ltb_enc (bound a + bound b + bound c)) by lia. lia.
Qed.

Lemma num_leb_ltb_trans (a b c : Number) :
  num_leb a b = true -> num_ltb b c = true -> num_ltb a c = true.
Proof.
  pose proof (bound_pos a). pose proof (bound_pos b). pose proof (bound_pos c).
  rewrite !(num_ltb_enc (bound a + bound b + bound c)),
    !(num_leb_enc (bound a + bound b + bound c)) by lia. lia.
Qed.

Lemma num_ltb_false_leb (a b : Number) :
  num_ltb a b = false -> num_leb b a = true.
Proof. intros H. unfold num_leb. now rewrite H. Qed.

(** At the root the window is (best_score, +infinity): a returned score
    beats the best score exactly when the true value does, and is then
    the true value. *)
Lemma root_step (bs e v : Number) :
  (num_ltb bs PosInf = true -> sound_window v e bs PosInf) ->
  num_ltb bs e = num_ltb bs v /\ (num_ltb bs e = true -> e = v).
Proof.
  intros H. destruct (num_ltb bs PosInf) eqn:E.
  - specialize (H eq_refl). revert E H. unfold sound_window.
    set (L := bound bs + bound e + bound v).
    number_bounds L.
    assert (BP : bound PosInf <= L) by (simpl; lia).
    rewrite !(num_ltb_enc L), !(num_leb_enc L) by assumption.
    intros E [G1 [G2 G3]].
    pose proof (fun h h' => f_equal (enc L) (G2 h h')) as G2'. clear G2.
    pose proof (enc_range L bs). pose proof (enc_range L e).
    pose proof (enc_range L v). change (enc L PosInf) with L in *.
    split; [ lia | ].
    intros Hlt. apply (enc_inj L); try assumption. lia.
  - destruct bs; try discriminate. split; [ reflexivity | discriminate ].
Qed.

Lemma get_move_loop_spec (d : Difficulty) (b : Board) :
  forall moves bd bs best,
    all_valid b moves -> forget_last_move bd = forget_last_move b ->
    get_move_loop d moves bd bs PosInf bs best
    = (first_best
         (fun p => minimax d (search_depth d - 1)
                     (fst (place_stone b (fst p) (snd p) WHITE)) false)
         moves bs best,
       match moves with [] => bd | _ :: _ => forget_last_move b end).
Proof.
  induction moves as [|[x y] rest IH]; intros bd bs best Hv Hbd;
    [ reflexivity | ].
  cbn [get_move_loop first_best fst snd].
  rewrite (trial_place b bd x y WHITE (Hv x y (or_introl eq_refl)) Hbd).
  pose proof (alpha_beta_keeps_cells d (search_depth d - 1)
                (fst (place_stone b x y WHITE)) bs PosInf false) as Hr.
  pose proof (alpha_beta_window d (search_depth d - 1)
                (fst (place_stone b x y WHITE)) bs PosInf false) as Hs.
  destruct (_alpha_beta d (search_depth d - 1) (fst (place_stone b x y WHITE))
                        bs PosInf false) as [e r].
  cbn [fst snd] in Hr, Hs.
  rewrite (trial_undo b r x y WHITE (Hv x y (or_introl eq_refl)) Hr).
  destruct (root_step bs e _ Hs) as [Hsame Heq].
  rewrite <- Hsame.
  destruct (num_ltb bs e) eqn:E.
  - rewrite <- (Heq eq_refl).
    replace (py_max bs e) with e by (unfold py_max; now rewrite E).
    rewrite (IH _ _ _ (all_valid_tail b _ _ Hv) (forget_last_move_twice b)).
    now destruct rest.
  - replace (py_max bs bs) with bs
      by (unfold py_max; now rewrite num_ltb_irrefl).
    rewrite (IH _ _ _ (all_valid_tail b _ _ Hv) (forget_last_move_twice b)).
    now destruct rest.
Qed.

(** What [first_best] selects: nothing new when no value beats the best
    score, otherwise the first element of greatest value. *)
Lemma first_best_spec {A : Type} (value : A -> Number) (l : list A) :
  forall bs best,
    (first_best value l bs best = best /\
     forall q, In q l -> num_leb (value q) bs = true)
    \/ exists l1 p l2,
        l = l1 ++ p :: l2 /\ first_best value l bs best = Some p /\
        num_ltb bs (value p) = true /\
        (forall q, In q l1 -> num_ltb (value q) (value p) = true) /\
        (forall q, In q l2 -> num_leb (value q) (value p) = true).
Proof.
  induction l as [|a r IH]; intros bs best.
  - left. split; [ reflexivity | intros q [] ].
  - cbn [first_best]. destruct (num_ltb bs (value a)) eqn:E.
    + right. destruct (IH (value a) (Some a)) as [[Hb Hall] | Hex].
      * exists [], a, r. repeat split; trivial. intros q [].
      * destruct Hex as [l1 [p [l2 [Hl [Hf [Hlt [H1 H2]]]]]]].
        exists (a :: l1), p, l2. subst r. repeat split; trivial.
        -- now apply (num_ltb_trans _ (value a)).
        -- intros q [<- | Hq]; [ exact Hlt | now apply H1 ].
    + apply num_ltb_false_leb in E.
      destruct (IH bs best) as [[Hb Hall] | Hex].
      * left. split; trivial. intros q [<- | Hq]; [ exact E | now apply Hall ].
      * right. destruct Hex as [l1 [p [l2 [Hl [Hf [Hlt [H1 H2]]]]]]].
        exists (a :: l1), p, l2. subst r. repeat split; trivial.
        intros q [<- | Hq]; [ | now apply H1 ].
        now apply (num_leb_ltb_trans _ bs).
Qed.

Lemma num_leb_neginf (a : Number) : num_leb a NegInf = true -> a = NegInf.
Proof. now destruct a. Qed.

Lemma get_move_unfold (d : Difficulty) (b : Board) :
  get_move d b
  = (match first_best (root_value d b) (_get_valid_moves d b) NegInf None with
     | Some move => move
     | None => (size b / 2, size b / 2)
     end,
     match _get_valid_moves d b with
     | [] => b
     | _ :: _ => forget_last_move b
     end).
Proof.
  unfold get_move.
  now rewrite (get_move_loop_spec d b _ b NegInf None
                 (get_valid_moves_all_valid d b) eq_refl).
Qed.

(** X14.  [get_move] is the arg-max of minimax.  When some candidate has a
    value above -infinity, [get_move] returns the first candidate, in the
    order of the generator, whose value is greatest; when every candidate
    has the value -infinity, and when there is no candidate, it returns
    the centre cell, occupied or not. *)
Theorem get_move_first_best (d : Difficulty) (b : Board) :
  ((forall q, In q (_get_valid_moves d b) -> root_value d b q = NegInf) ->
   fst (get_move d b) = (size b / 2, size b / 2)) /\
  ((exists q, In q (_get_valid_moves d b) /\ root_value d b q <> NegInf) ->
   exists l1 p l2,
     _get_valid_moves d b = l1 ++ p :: l2 /\ fst (get_move d b) = p /\
     (forall q, In q l1 -> num_ltb (root_value d b q) (root_value d b p) = true) /\
     (forall q, In q l2 -> num_leb (root_value d b q) (root_value d b p) = true)).
Proof.
  rewrite get_move_unfold. cbn [fst].
  destruct (first_best_spec (root_value d b) (_get_valid_moves d b) NegInf None)
    as [[Hnone Hall] | [l1 [p [l2 [Hl [Hf [Hlt [H1 H2]]]]]]]].
  - rewrite Hnone. split; [ reflexivity | ].
    intros [q [Hq Hv]]. exfalso. apply Hv.
    apply num_leb_neginf. now apply Hall.
  - rewrite Hf. split.
    + intros Hall. exfalso.
      rewrite (Hall p) in Hlt; [ discriminate | ].
      rewrite Hl. apply in_or_app. right. now left.
    + intros _. exists l1, p, l2. repeat split; trivial.
Qed.

Lemma get_move_first_best_witness :
  fst (get_move EASY Board_init) = (size Board_init / 2, size Board_init / 2).
Proof.
  apply (proj1 (get_move_first_best EASY Board_init)).
  intros q Hq. rewrite (get_valid_moves_no_stones EASY Board_init eq_refl) in Hq.
  destruct Hq.
Defined.

Lemma first_best_in {A : Type} (value : A -> Number) (l : list A) (p : A) :
  forall bs, first_best value l bs None = Some p -> In p l.
Proof.
  intros bs H.
  destruct (first_best_spec value l bs None)
    as [[Hnone _] | [l1 [p' [l2 [Hl [Hf _]]]]]].
  - congruence.
  - rewrite Hl. apply in_or_app. right. left. congruence.
Qed.

(** X15.  [get_move] undoes its trials: it hands the board back with its size
    and stone list, untouched when there was no candidate and with the
    last move forgotten otherwise; the move it returns is a candidate,
    where a placement on the returned board succeeds, or the centre. *)
Theorem get_move_board (d : Difficulty) (b : Board) :
  size (snd (get_move d b)) = size b /\
  stones (snd (get_move d b)) = stones b /\
  (_get_valid_moves d b = [] -> snd (get_move d b) = b) /\
  (_get_valid_moves d b <> [] -> last_move (snd (get_move d b)) = None) /\
  ((In (fst (get_move d b)) (_get_valid_moves d b) /\
    snd (place_stone (snd (get_move d b))
                     (fst (fst (get_move d b))) (snd (fst (get_move d b)))
                     WHITE) = true)
   \/ fst (get_move d b) = (size b / 2, size b / 2)).
Proof.
  rewrite get_move_unfold. cbn [fst snd].
  split; [ | split; [ | split; [ | split ] ] ].
  - now destruct (_get_valid_moves d b).
  - now destruct (_get_valid_moves d b).
  - now intros ->.
  - now destruct (_get_valid_moves d b).
  - destruct (first_best (root_value d b) (_get_valid_moves d b) NegInf None)
      as [[x y]|] eqn:E; [ left | now right ].
    pose proof (first_best_in _ _ _ _ E) as Hin. split; trivial.
    apply in_get_valid_moves in Hin. destruct Hin as [Hv _].
    cbn [fst snd]. unfold place_stone.
    rewrite (is_valid_move_same_cells _ b);
      [ now rewrite Hv | | ]; now destruct (_get_valid_moves d b).
Qed.

Lemma get_move_board_witness :
  snd (get_move HARD Board_init) = Board_init.
Proof.
  apply (proj1 (proj2 (proj2 (get_move_board HARD Board_init)))).
  reflexivity.
Defined.

Lemma eval_arm_forget (b : Board) (color : Color) (cell : Z -> Z * Z)
      (steps : list Z) :
  forall t, eval_arm (forget_last_move b) color cell steps t
            = eval_arm b color cell steps t.
Proof.
  induction steps as [|i steps IH]; intros t; [ reflexivity | ].
  rewrite !eval_arm_cons, IH. reflexivity.
Qed.

Lemma evaluate_position_forget (d : Difficulty) (x y : Z) (b : Board)
      (color : Color) :
  _evaluate_position d x y (forget_last_move b) color
  = _evaluate_position d x y b color.
Proof.
  rewrite !evaluate_position_axes. unfold axis_tally.
  now rewrite !eval_arm_forget.
Qed.

Lemma has_neighbor_forget (b : Board) (x y distance : Z) :
  _has_neighbor (forget_last_move b) x y distance = _has_neighbor b x y distance.
Proof. reflexivity. Qed.

Lemma get_valid_moves_forget (d : Difficulty) (b : Board) :
  _get_valid_moves d (forget_last_move b) = _get_valid_moves d b.
Proof.
  assert (H : scored_candidates d (forget_last_move b) = scored_candidates d b).
  { unfold scored_candidates.
    change (size (forget_last_move b)) with (size b).
    apply flat_map_ext. intros x. apply flat_map_ext. intros y.
    rewrite has_neighbor_forget, evaluate_position_forget.
    now rewrite (is_valid_move_same_cells (forget_last_move b) b). }
  unfold _get_valid_moves. now rewrite H.
Qed.

(** The move of [get_move] does not depend on the last move of the board
    it is given. *)
Lemma get_move_forget (d : Difficulty) (b : Board) :
  fst (get_move d (forget_last_move b)) = fst (get_move d b).
Proof.
  unfold get_move. rewrite get_valid_moves_forget.
  rewrite (get_move_loop_spec d b _ (forget_last_move b) NegInf None
             (get_valid_moves_all_valid d b) eq_refl).
  now rewrite (get_move_loop_spec d b _ b NegInf None
                 (get_valid_moves_all_valid d b) eq_refl).
Qed.

(** ** Clicks and cells *)

Lemma get_board_position_eq (px py : Z) :
  get_board_position (px, py) = ((px - 137) / 35, (py - 37) / 35).
Proof. reflexivity. Qed.

(** X17.  A click lands in the cell whose 35-pixel square contains it; the
    centre of the stone drawn for a cell is mapped back to that cell; and
    the cell is on the 15x15 board exactly when the click is inside the
    board rectangle, 137 <= x < 662 and 37 <= y < 562. *)
Theorem get_board_position_cell :
  (forall x y, get_board_position (stone_center x y) = (x, y)) /\
  (forall px py x y,
      get_board_position (px, py) = (x, y)
      <-> 137 + 35 * x <= px < 137 + 35 * x + 35 /\
          37 + 35 * y <= py < 37 + 35 * y + 35) /\
  (forall px py,
      in_bounds Board_init (fst (get_board_position (px, py)))
                (snd (get_board_position (px, py)))
      <-> 137 <= px < 662 /\ 37 <= py < 562).
Proof.
  split; [ | split ].
  - intros x y. unfold stone_center.
    change ((SCREEN_WIDTH - BOARD_SIZE * CELL_SIZE) / 2) with 137.
    change ((SCREEN_HEIGHT - BOARD_SIZE * CELL_SIZE) / 2) with 37.
    change CELL_SIZE with 35. change (35 / 2) with 17.
    rewrite get_board_position_eq.
    f_equal; Z.to_euclidean_division_equations; lia.
  - intros px py x y. rewrite get_board_position_eq. split.
    + intros H. inversion H. Z.to_euclidean_division_equations. lia.
    + intros H. f_equal; Z.to_euclidean_division_equations; lia.
  - intros px py. rewrite get_board_position_eq. unfold in_bounds.
    cbn [fst snd size Board_init]. change BOARD_SIZE with 15.
    Z.to_euclidean_division_equations. lia.
Qed.

(** ** The game after it is over *)

Lemma draw_fields (g : Game) :
  state (draw g) = state g /\ board (draw g) = board g /\
  game_mode (draw g) = game_mode g /\
  current_player (draw g) = current_player g /\
  ai (draw g) = ai g /\ ai_move_made (draw g) = ai_move_made g.
Proof.
  destruct g as [s b m p a l f [q|] u v]; destruct s; cbv; repeat split.
Qed.

Lemma draw_twice (g : Game) : draw (draw g) = draw g.
Proof. destruct g as [s b m p a l f [q|] u v]; destruct s; reflexivity. Qed.

Section GameOver.

Variable collidepoint : Rect -> Z * Z -> bool.

Lemma process_events_game_over (events : list Event) :
  forall g running log,
    state g = GAME_OVER ->
    exists running',
      process_events collidepoint events g running log = (g, running', log).
Proof.
  induction events as [|e events IH]; intros g running log Hs.
  - now exists running.
  - destruct e; cbn [process_events]; try (apply IH; exact Hs);
      unfold handle_event; rewrite Hs, app_nil_r; now apply IH.
Qed.

Lemma frame_game_over (g : Game) (events : list Event) :
  state g = GAME_OVER ->
  exists running, frame collidepoint g events = (draw g, running, []).
Proof.
  intros Hs. unfold frame.
  destruct (process_events_game_over events g true [] Hs) as [r ->].
  unfold update. rewrite Hs. now exists r.
Qed.

Lemma run_game_over (frames : list (list Event)) :
  forall g, state g = GAME_OVER ->
            (fst (run collidepoint frames g) = g
             \/ fst (run collidepoint frames g) = draw g)
            /\ snd (run collidepoint frames g) = [].
Proof.
  induction frames as [|events frames IH]; intros g Hs.
  - split; [ now left | reflexivity ].
  - cbn [run]. destruct (frame_game_over g events Hs) as [r ->].
    destruct r; [ | split; [ now right | reflexivity ] ].
    assert (Hd : state (draw g) = GAME_OVER)
      by (now rewrite (proj1 (draw_fields g))).
    destruct (IH (draw g) Hd) as [Hg Hl].
    destruct (run collidepoint frames (draw g)) as [g' l].
    cbn [fst snd] in *. subst l. split; [ | reflexivity ].
    right. destruct Hg as [-> | ->]; [ reflexivity | apply draw_twice ].
Qed.

End GameOver.

(** X18.  GAME_OVER is final.  Whatever events arrive in whatever number of
    turns of the main loop, a game that is over stays over with the same
    board, mode and player, and no sound is played: there is no way back
    to the menu or to a new game. *)
Theorem game_over_is_final (collidepoint : Rect -> Z * Z -> bool)
        (frames : list (list Event)) (g : Game) :
  state g = GAME_OVER ->
  state (fst (run collidepoint frames g)) = GAME_OVER /\
  board (fst (run collidepoint frames g)) = board g /\
  game_mode (fst (run collidepoint frames g)) = game_mode g /\
  current_player (fst (run collidepoint frames g)) = current_player g /\
  snd (run collidepoint frames g) = [].
Proof.
  intros Hs. destruct (run_game_over collidepoint frames g Hs) as [Hg Hl].
  destruct (draw_fields g) as [D1 [D2 [D3 [D4 _]]]].
  destruct Hg as [-> | ->]; repeat split; trivial; congruence.
Qed.

Lemma game_over_is_final_witness :
  state (fst (run rect_contains
                  [[MOUSEBUTTONDOWN (400, 300)]; [MOUSEMOTION (310, 210)]]
                  (set_state GAME_OVER open_four_game))) = GAME_OVER.
Proof.
  apply (game_over_is_final rect_contains
           [[MOUSEBUTTONDOWN (400, 300)]; [MOUSEMOTION (310, 210)]]
           (set_state GAME_OVER open_four_game)).
  reflexivity.
Defined.

(** ** Whose stones are on the board *)

Lemma count_color_placed (c c' : Color) (n : Z) (l : list Stone) (x y : Z)
      (lm lm' : option Stone) :
  count_color c (mkBoard n (l ++ [mkStone x y c']) lm)
  = count_color c (mkBoard n l lm') + (if color_eqb c' c then 1 else 0).
Proof.
  unfold count_color. cbn [stones]. rewrite filter_app, length_app.
  cbn [filter stone_color]. destruct (color_eqb c' c); simpl; lia.
Qed.

Lemma count_color_same_stones (c : Color) (b1 b2 : Board) :
  stones b1 = stones b2 -> count_color c b1 = count_color c b2.
Proof. intros H. unfold count_color. now rewrite H. Qed.

Lemma game_inv_core (g g' : Game) :
  state g' = state g -> board g' = board g -> game_mode g' = game_mode g ->
  current_player g' = current_player g -> ai_move_made g' = ai_move_made g ->
  game_inv g -> game_inv g'.
Proof.
  intros H1 H2 H3 H4 H5. unfold game_inv, menu_inv, pvp_inv, pve_inv.
  now rewrite H1, H2, H3, H4, H5.
Qed.

Lemma game_inv_draw (g : Game) : game_inv g -> game_inv (draw g).
Proof.
  destruct (draw_fields g) as [D1 [D2 [D3 [D4 [_ D5]]]]].
  now apply game_inv_core.
Qed.

(** Nothing played, the human to move, the game not over. *)
Lemma game_inv_fresh (g : Game) :
  stones (board g) = [] -> current_player g = HUMAN -> state g <> GAME_OVER ->
  game_inv g.
Proof.
  intros Hs Hp Hn. unfold game_inv, menu_inv, pvp_inv, pve_inv, all_black,
    count_color. rewrite Hs, Hp. repeat split; auto.
  intros _. destruct (state g); trivial. now contradiction Hn.
Qed.

Section GameInvariant.

Variable collidepoint : Rect -> Z * Z -> bool.

Lemma menu_loop_fields (event : Event) (buttons : list Button) :
  forall i done g log,
    let r := fst (menu_loop collidepoint event i buttons done g log) in
    board r = board g /\ current_player r = current_player g /\
    (state r = state g \/ state r = PLAYING \/ state r = SETTINGS).
Proof.
  induction buttons as [|button rest IH]; intros i done g log; cbv zeta.
  - cbn [menu_loop fst]. repeat split. now left.
  - cbn [menu_loop].
    destruct (Button_handle_event collidepoint button event) as [bt clicked].
    destruct clicked; [ | apply IH ].
    destruct i as [|[|[|[|i]]]];
      match goal with
      | |- context [menu_loop _ _ ?j _ ?dn ?g' ?l'] =>
          destruct (IH j dn g' l') as [Hb [Hp Hs]];
          cbv zeta in Hb, Hp, Hs; rewrite Hb, Hp;
          repeat split; try reflexivity;
          destruct Hs as [Hs | [Hs | Hs]]; rewrite Hs; cbn; auto
      end.
Qed.

Lemma handle_menu_event_inv (g : Game) (event : Event) :
  state g = MENU \/ state g = SETTINGS -> game_inv g ->
  game_inv (fst (handle_menu_event collidepoint g event)).
Proof.
  intros Hs [Hm _]. destruct (Hm Hs) as [Hstones Hplayer].
  unfold handle_menu_event.
  destruct (menu_loop_fields event (menu_buttons g) 0 [] g [])
    as [Hb [Hp Hst]].
  cbv zeta in Hb, Hp, Hst.
  apply game_inv_fresh.
  - now rewrite Hb.
  - now rewrite Hp.
  - destruct Hst as [H | [H | H]]; rewrite H; try discriminate.
    destruct Hs as [-> | ->]; discriminate.
Qed.

End GameInvariant.

Lemma color_eqb_black_white :
  color_eqb BLACK BLACK = true /\ color_eqb BLACK WHITE = false /\
  color_eqb WHITE WHITE = true /\ color_eqb WHITE BLACK = false.
Proof. repeat split. Qed.

Lemma handle_game_event_inv (g : Game) (event : Event) :
  state g = PLAYING -> game_inv g -> game_inv (fst (handle_game_event g event)).
Proof.
  intros Hst Hinv. unfold handle_game_event.
  destruct event as [pos | pos | | ]; try exact Hinv.
  destruct (current_player g) eqn:Hp; [ | exact Hinv ].
  destruct (get_board_position pos) as [x y].
  unfold place_stone. destruct (is_valid_move (board g) x y); [ | exact Hinv ].
  destruct Hinv as [_ [Hpvp Hpve]].
  unfold pvp_inv, pve_inv in Hpvp, Hpve. rewrite Hst, Hp in *.
  destruct g as [st [n l lm] gm cp a mb amm amp umm ump].
  cbn in Hst, Hp, Hpvp, Hpve. subst st cp.
  cbn [board game_mode set_board set_user_move_made set_user_move_position
       set_state set_current_player set_ai_move_made state current_player
       ai menu_buttons ai_move_made ai_move_position user_move_made
       user_move_position size stones last_move andb].
  assert (Hblack : gm = PVP ->
            all_black (mkBoard n (l ++ [mkStone x y BLACK])
                               (Some (mkStone x y BLACK)))).
  { intros Hm. destruct (Hpvp Hm) as [_ Hall].
    unfold all_black in *. cbn [stones] in *.
    apply Forall_app. split; trivial. now repeat constructor. }
  pose proof (count_color_placed BLACK BLACK n l x y
                (Some (mkStone x y BLACK)) lm) as Cb.
  pose proof (count_color_placed WHITE BLACK n l x y
                (Some (mkStone x y BLACK)) lm) as Cw.
  cbn [color_eqb BLACK WHITE Z.eqb andb Pos.eqb] in Cb, Cw.
  destruct (check_win _ _).
  - cbn [fst]. apply game_inv_draw.
    unfold game_inv, menu_inv, pvp_inv, pve_inv. cbn.
    split; [ intros [H | H]; discriminate | split ].
    + intros Hm. split; [ reflexivity | now apply Hblack ].
    + intros Hm. specialize (Hpve Hm). lia.
  - destruct gm; cbn [fst]; apply game_inv_draw;
      unfold game_inv, menu_inv, pvp_inv, pve_inv; cbn;
      (split; [ intros [H | H]; discriminate | split ]);
      try (intros H; discriminate H).
    + intros _. split; [ reflexivity | now apply Hblack ].
    + intros _. specialize (Hpve eq_refl). split; [ lia | reflexivity ].
Qed.

Lemma get_move_stones (d : Difficulty) (b : Board) :
  stones (snd (get_move d b)) = stones b /\
  forget_last_move (snd (get_move d b)) = forget_last_move b.
Proof.
  rewrite get_move_unfold. cbn [snd].
  now destruct (_get_valid_moves d b).
Qed.

Lemma update_inv (g : Game) : game_inv g -> game_inv (fst (update g)).
Proof.
  intros Hinv. unfold update.
  destruct g as [st bd gm cp a mb amm amp umm ump].
  destruct st; try exact Hinv.
  destruct cp, amm, umm;
    cbn [state user_move_made current_player ai_move_made ai board
         set_user_move_made game_mode menu_buttons ai_move_position
         user_move_position];
    try exact Hinv;
    try (now apply (game_inv_core _ _ eq_refl eq_refl eq_refl eq_refl eq_refl
                      Hinv)).
  all: destruct Hinv as [_ [Hpvp Hpve]].
  all: unfold pvp_inv, pve_inv in Hpvp, Hpve; cbn in Hpvp, Hpve.
  all: destruct gm; [ destruct (Hpvp eq_refl) as [H _]; discriminate H | ].
  all: destruct (Hpve eq_refl) as [Hcount _]; clear Hpvp Hpve.
  all: destruct (get_move_stones a bd) as [Hs _].
  all: destruct (get_move a bd) as [[x y] b1]; cbn [snd] in Hs.
  all: pose proof (count_color_placed BLACK WHITE (size b1) (stones b1) x y
                     (Some (mkStone x y WHITE)) (last_move bd)) as Cb.
  all: pose proof (count_color_placed WHITE WHITE (size b1) (stones b1) x y
                     (Some (mkStone x y WHITE)) (last_move bd)) as Cw.
  all: cbn [color_eqb BLACK WHITE Z.eqb andb Pos.eqb] in Cb, Cw.
  all: rewrite (count_color_same_stones BLACK
                  (mkBoard (size b1) (stones b1) (last_move bd)) bd Hs) in Cb.
  all: rewrite (count_color_same_stones WHITE
                  (mkBoard (size b1) (stones b1) (last_move bd)) bd Hs) in Cw.
  all: pose proof (count_color_same_stones BLACK b1 bd Hs) as Sb.
  all: pose proof (count_color_same_stones WHITE b1 bd Hs) as Sw.
  all: unfold place_stone; destruct (is_valid_move b1 x y);
    cbn [last_move set_board set_ai_move_made set_ai_move_position set_state
         set_current_player state board game_mode current_player ai
         menu_buttons ai_move_made ai_move_position user_move_made
         user_move_position];
    try destruct (check_win _ _); cbn [fst]; apply game_inv_draw;
    unfold game_inv, menu_inv, pvp_inv, pve_inv; cbn;
    (split; [ intros [H | H]; discriminate | split ]);
    try (intros H; discriminate H); intros _;
    try (split; [ | reflexivity ]); lia.
Qed.

Section GameRun.

Variable collidepoint : Rect -> Z * Z -> bool.

Lemma handle_event_inv (g : Game) (event : Event) :
  game_inv g -> game_inv (fst (handle_event collidepoint g event)).
Proof.
  intros Hinv. unfold handle_event. destruct (state g) eqn:Hs.
  - apply handle_menu_event_inv; auto.
  - now apply handle_game_event_inv.
  - exact Hinv.
  - apply handle_menu_event_inv; auto.
Qed.

Lemma process_events_inv (events : list Event) :
  forall g running log,
    game_inv g ->
    game_inv (fst (fst (process_events collidepoint events g running log))).
Proof.
  induction events as [|e events IH]; intros g running log Hinv;
    [ exact Hinv | ].
  destruct e as [pos | pos | | ]; cbn [process_events].
  - pose proof (handle_event_inv g (MOUSEMOTION pos) Hinv) as He.
    destruct (handle_event collidepoint g (MOUSEMOTION pos)) as [g' l].
    now apply IH.
  - pose proof (handle_event_inv g (MOUSEBUTTONDOWN pos) Hinv) as He.
    destruct (handle_event collidepoint g (MOUSEBUTTONDOWN pos)) as [g' l].
    now apply IH.
  - now apply IH.
  - pose proof (handle_event_inv g OtherEvent Hinv) as He.
    destruct (handle_event collidepoint g OtherEvent) as [g' l].
    now apply IH.
Qed.

Lemma frame_inv (g : Game) (events : list Event) :
  game_inv g -> game_inv (fst (fst (frame collidepoint g events))).
Proof.
  intros Hinv. unfold frame.
  pose proof (process_events_inv events g true [] Hinv) as Hp.
  destruct (process_events collidepoint events g true []) as [[g1 r] l1].
  cbn [fst] in Hp. pose proof (update_inv g1 Hp) as Hu.
  destruct (update g1) as [g2 l2]. cbn [fst] in *.
  now apply game_inv_draw.
Qed.

Lemma run_inv (frames : list (list Event)) :
  forall g, game_inv g -> game_inv (fst (run collidepoint frames g)).
Proof.
  induction frames as [|events frames IH]; intros g Hinv; [ exact Hinv | ].
  cbn [run]. pose proof (frame_inv g events Hinv) as Hf.
  destruct (frame collidepoint g events) as [[g1 r] l1]. cbn [fst] in Hf.
  destruct r; [ | exact Hf ].
  specialize (IH g1 Hf). now destruct (run collidepoint frames g1).
Qed.

End GameRun.

Lemma game_inv_init : game_inv Game_init.
Proof. apply game_inv_fresh; [ reflexivity | reflexivity | discriminate ]. Qed.

(** X19.  In a game of player against player, however it was reached from the
    start, the turn is the human's and every stone on the board is black:
    both players place black stones. *)
Theorem pvp_only_black_stones (collidepoint : Rect -> Z * Z -> bool)
        (frames : list (list Event)) :
  game_mode (fst (run collidepoint frames Game_init)) = PVP ->
  current_player (fst (run collidepoint frames Game_init)) = HUMAN /\
  all_black (board (fst (run collidepoint frames Game_init))).
Proof.
  intros Hm.
  destruct (run_inv collidepoint frames Game_init game_inv_init) as [_ [Hpvp _]].
  now apply Hpvp.
Qed.

Lemma pvp_only_black_stones_witness :
  all_black
    (board (fst (run rect_contains
                     [[MOUSEMOTION (310, 280)]; [MOUSEBUTTONDOWN (310, 280)];
                      [MOUSEBUTTONDOWN (400, 300)]; [MOUSEBUTTONDOWN (440, 300)]]
                     Game_init))).
Proof.
  apply (pvp_only_black_stones rect_contains
           [[MOUSEMOTION (310, 280)]; [MOUSEBUTTONDOWN (310, 280)];
            [MOUSEBUTTONDOWN (400, 300)]; [MOUSEBUTTONDOWN (440, 300)]]).
  vm_compute. reflexivity.
Defined.

(** X20.  In a game of player against machine, however it was reached from the
    start, black has as many stones as white or one more, and exactly as
    many whenever the human is to move in a running game. *)
Theorem pve_turns_alternate (collidepoint : Rect -> Z * Z -> bool)
        (frames : list (list Event)) :
  game_mode (fst (run collidepoint frames Game_init)) = PVE ->
  let g := fst (run collidepoint frames Game_init) in
  count_color WHITE (board g) <= count_color BLACK (board g)
  <= count_color WHITE (board g) + 1 /\
  (state g = PLAYING -> current_player g = HUMAN ->
   count_color BLACK (board g) = count_color WHITE (board g)).
Proof.
  intros Hm. cbv zeta.
  destruct (run_inv collidepoint frames Game_init game_inv_init)
    as [Hmenu [_ Hpve]].
  specialize (Hpve Hm). unfold menu_inv in Hmenu.
  destruct (state (fst (run collidepoint frames Game_init))) eqn:Hs.
  - destruct (Hmenu (or_introl eq_refl)) as [Hst _].
    unfold count_color. rewrite Hst. cbn. split; [ lia | discriminate ].
  - destruct (current_player (fst (run collidepoint frames Game_init))).
    + split; [ lia | intros _ _; exact Hpve ].
    + split; [ lia | intros _ H; discriminate H ].
  - split; [ lia | discriminate ].
  - destruct (Hmenu (or_intror eq_refl)) as [Hst _].
    unfold count_color. rewrite Hst. cbn. split; [ lia | discriminate ].
Qed.

Lemma pve_turns_alternate_witness :
  let g := fst (run rect_contains
                    [[MOUSEMOTION (310, 210)]; [MOUSEBUTTONDOWN (310, 210)]]
                    Game_init) in
  count_color WHITE (board g) <= count_color BLACK (board g)
  <= count_color WHITE (board g) + 1 /\
  (state g = PLAYING -> current_player g = HUMAN ->
   count_color BLACK (board g) = count_color WHITE (board g)).
Proof.
  apply (pve_turns_alternate rect_contains
           [[MOUSEMOTION (310, 210)]; [MOUSEBUTTONDOWN (310, 210)]]).
  vm_compute. reflexivity.
Defined.

(** ** When the machine has no playable move *)

Lemma minimax_game_over (d : Difficulty) (depth : nat) (b : Board) (m : bool) :
  is_game_over b = true -> minimax d depth b m = _evaluate_board d b.
Proof. intros H. destruct depth; simpl; [ | rewrite H ]; reflexivity. Qed.

Lemma py_min_neginf_l (a : Number) : py_min NegInf a = NegInf.
Proof. now destruct a. Qed.

Lemma py_min_neginf_r (a : Number) : py_min a NegInf = NegInf.
Proof. now destruct a. Qed.

Lemma fold_min_neginf {A : Type} (f : A -> Number) (l : list A) (p : A) :
  In p l -> f p = NegInf ->
  forall init, fold_left (fun acc q => py_min acc (f q)) l init = NegInf.
Proof.
  intros Hin Hp.
  assert (Hstay : forall l', fold_left (fun acc q => py_min acc (f q)) l' NegInf
                             = NegInf).
  { induction l' as [|a l' IH]; simpl; [ reflexivity | ].
    now rewrite py_min_neginf_l. }
  induction l as [|a l IH]; intros init; [ destruct Hin | ].
  simpl. destruct Hin as [-> | Hin].
  - rewrite Hp, py_min_neginf_r. apply Hstay.
  - now apply IH.
Qed.

(** A candidate after which BLACK wins at once has the value -infinity. *)
Lemma black_wins_next_value (d : Difficulty) (b : Board) (q : Z * Z) :
  black_wins_next d b q = true -> root_value d b q = NegInf.
Proof.
  unfold black_wins_next, root_value. cbv zeta.
  set (b1 := fst (place_stone b (fst q) (snd q) WHITE)).
  rewrite andb_true_iff, negb_true_iff, existsb_exists.
  intros [Hng [[x y] [Hin Hwin]]]. cbn [fst snd] in Hwin.
  assert (Hd : exists k, (search_depth d - 1)%nat = S k)
    by (destruct d; simpl; eauto).
  destruct Hd as [k ->]. cbn [minimax]. rewrite Hng.
  apply (fold_min_neginf _ _ (x, y) Hin). cbn [fst snd].
  apply in_get_valid_moves in Hin. destruct Hin as [Hv _].
  rewrite (place_stone_valid b1 x y BLACK Hv) in *. cbn [fst last_move] in *.
  assert (Hover : is_game_over (mkBoard (size b1) (stones b1 ++ [mkStone x y BLACK])
                                        (Some (mkStone x y BLACK))) = true)
    by (unfold is_game_over; cbn [last_move]; now rewrite Hwin).
  rewrite (minimax_game_over _ _ _ _ Hover).
  unfold _evaluate_board, get_winner. rewrite Hover. cbn [last_move].
  now rewrite Hwin.
Qed.

Lemma get_move_lost (d : Difficulty) (b : Board) :
  (forall q, In q (_get_valid_moves d b) -> root_value d b q = NegInf) ->
  fst (get_move d b) = (size b / 2, size b / 2).
Proof.
  intros Hall. rewrite get_move_unfold. cbn [fst].
  destruct (first_best_spec (root_value d b) (_get_valid_moves d b) NegInf None)
    as [[-> _] | [l1 [p [l2 [Hl [_ [Hlt _]]]]]]]; [ reflexivity | ].
  rewrite (Hall p) in Hlt; [ discriminate | ].
  rewrite Hl. apply in_or_app. right. now left.
Qed.

Lemma is_valid_move_forget_eq (b1 b2 : Board) (x y : Z) :
  forget_last_move b1 = forget_last_move b2 ->
  is_valid_move b1 x y = is_valid_move b2 x y.
Proof.
  intros H. inversion H. now apply is_valid_move_same_cells.
Qed.

Lemma get_move_same_cells (d : Difficulty) (b1 b2 : Board) :
  forget_last_move b1 = forget_last_move b2 ->
  fst (get_move d b1) = fst (get_move d b2).
Proof.
  intros H. now rewrite <- (get_move_forget d b1), H, get_move_forget.
Qed.

Section Frozen.

Variable collidepoint : Rect -> Z * Z -> bool.
Variable g0 : Game.

Hypothesis illegal :
  is_valid_move (board g0) (fst (fst (get_move (ai g0) (board g0))))
                (snd (fst (get_move (ai g0) (board g0)))) = false.

Lemma frozen_handle_event (g : Game) (event : Event) :
  frozen g0 g -> handle_event collidepoint g event = (g, []).
Proof.
  intros [Hs [Hp _]]. unfold handle_event, handle_game_event.
  rewrite Hs, Hp. now destruct event.
Qed.

Lemma frozen_update (g : Game) :
  frozen g0 g -> exists g', update g = (g', []) /\ frozen g0 g'.
Proof.
  intros [Hs [Hp [Hm [Ha Hb]]]]. unfold update.
  destruct g as [st bd gm cp a mb amm amp umm ump].
  cbn in Hs, Hp, Hm, Ha, Hb. subst st cp amm a.
  assert (Hmove : fst (get_move (ai g0) bd) = fst (get_move (ai g0) (board g0)))
    by (now apply get_move_same_cells).
  destruct (get_move_stones (ai g0) bd) as [_ Hf].
  destruct umm;
    cbn [state user_move_made current_player ai_move_made ai board
         set_user_move_made game_mode menu_buttons ai_move_position
         user_move_position];
    destruct (get_move (ai g0) bd) as [[x y] b1]; cbn [fst snd] in Hmove, Hf;
    unfold place_stone;
    rewrite (is_valid_move_forget_eq b1 (board g0))
      by (now rewrite Hf);
    (replace (is_valid_move (board g0) x y) with false
      by (rewrite <- illegal, <- Hmove; reflexivity));
    eexists; (split; [ reflexivity | ]);
    unfold frozen;
    match goal with
    | |- context [draw ?g] =>
        destruct (draw_fields g) as [D1 [D2 [_ [D4 [D5 D6]]]]];
        rewrite D1, D2, D4, D5, D6
    end; cbn; repeat split; now rewrite Hf.
Qed.

Lemma frozen_process_events (events : list Event) :
  forall g running log,
    frozen g0 g ->
    exists running',
      process_events collidepoint events g running log = (g, running', log).
Proof.
  induction events as [|e events IH]; intros g running log Hf.
  - now exists running.
  - destruct e; cbn [process_events]; try (now apply IH);
      rewrite (frozen_handle_event g _ Hf), app_nil_r; now apply IH.
Qed.

Lemma frozen_run (frames : list (list Event)) :
  forall g, frozen g0 g ->
            frozen g0 (fst (run collidepoint frames g)) /\
            snd (run collidepoint frames g) = [].
Proof.
  induction frames as [|events frames IH]; intros g Hf.
  - split; [ exact Hf | reflexivity ].
  - cbn [run]. unfold frame.
    destruct (frozen_process_events events g true [] Hf) as [r ->].
    destruct (frozen_update g Hf) as [g' [-> Hf']].
    assert (Hd : frozen g0 (draw g')).
    { destruct Hf' as [F1 [F2 [F3 [F4 F5]]]].
      destruct (draw_fields g') as [D1 [D2 [_ [D4 [D5 D6]]]]].
      unfold frozen. now rewrite D1, D2, D4, D5, D6. }
    destruct r; [ | split; [ exact Hd | reflexivity ] ].
    destruct (IH (draw g') Hd) as [H1 H2].
    destruct (run collidepoint frames (draw g')) as [g'' l].
    cbn [fst snd] in *. now subst l.
Qed.

End Frozen.

(** X21.  The machine's turn never ends when its move is not playable.  If the
    machine is to move and the cell [get_move] returns is not a valid
    move, then through any number of turns of the main loop, whatever
    events arrive, the game stays in play with the machine to move, the
    stones stay as they are and no sound is played. *)
Theorem illegal_ai_move_freezes (collidepoint : Rect -> Z * Z -> bool)
        (frames : list (list Event)) (g : Game) :
  state g = PLAYING -> current_player g = AI -> ai_move_made g = false ->
  is_valid_move (board g) (fst (fst (get_move (ai g) (board g))))
                (snd (fst (get_move (ai g) (board g)))) = false ->
  state (fst (run collidepoint frames g)) = PLAYING /\
  current_player (fst (run collidepoint frames g)) = AI /\
  stones (board (fst (run collidepoint frames g))) = stones (board g) /\
  snd (run collidepoint frames g) = [].
Proof.
  intros Hs Hp Hm Hill.
  assert (Hf : frozen g g) by (unfold frozen; auto).
  destruct (frozen_run collidepoint g Hill frames g Hf)
    as [[F1 [F2 [_ [_ F5]]]] Hl].
  repeat split; trivial. now inversion F5.
Qed.

(** With an open four of BLACK through the centre, every reply of WHITE
    loses at once, [get_move] falls back on the occupied centre, and the
    game freezes. *)
Lemma illegal_ai_move_freezes_witness :
  state (fst (run rect_contains [[MOUSEBUTTONDOWN (400, 300)]; []]
                  open_four_game)) = PLAYING /\
  current_player (fst (run rect_contains [[MOUSEBUTTONDOWN (400, 300)]; []]
                           open_four_game)) = AI /\
  stones (board (fst (run rect_contains [[MOUSEBUTTONDOWN (400, 300)]; []]
                          open_four_game))) = stones (board open_four_game) /\
  snd (run rect_contains [[MOUSEBUTTONDOWN (400, 300)]; []] open_four_game) = [].
Proof.
  apply (illegal_ai_move_freezes rect_contains
           [[MOUSEBUTTONDOWN (400, 300)]; []] open_four_game).
  - reflexivity.
  - reflexivity.
  - reflexivity.
  - cbn [board ai open_four_game].
    rewrite (get_move_lost MEDIUM open_four_board).
    + vm_compute. reflexivity.
    + intros q Hq. apply black_wins_next_value.
      assert (Hall : forallb (black_wins_next MEDIUM open_four_board)
                             (_get_valid_moves MEDIUM open_four_board) = true)
        by (vm_compute; reflexivity).
      rewrite forallb_forall in Hall. exact (Hall q Hq).
Defined.

(** ** The single-ply player of game.py *)

Lemma scan_fold {S : Type} (keep : Z -> Z -> bool) (step : S -> Z * Z -> S)
      (xs ys : list Z) :
  forall st,
    fold_left
      (fun st x =>
         fold_left (fun st y => if keep x y then step st (x, y) else st) ys st)
      xs st
    = fold_left step (filter (fun p => keep (fst p) (snd p)) (list_prod xs ys)) st.
Proof.
  induction xs as [|x xs IH]; intros st; [ reflexivity | ].
  cbn [fold_left list_prod]. rewrite IH, filter_app, fold_left_app. f_equal.
  clear IH. revert st. induction ys as [|y ys IHy]; intros st; [ reflexivity | ].
  cbn [fold_left map filter fst snd]. rewrite IHy.
  now destruct (keep x y).
Qed.

Lemma fold_first_best {A : Type} (value : A -> Number) (l : list A) :
  forall bs best,
    snd (fold_left
           (fun st p => if num_ltb (fst st) (value p) then (value p, Some p)
                        else st)
           l (bs, best))
    = first_best value l bs best.
Proof.
  induction l as [|a l IH]; intros bs best; [ reflexivity | ].
  cbn [fold_left first_best fst].
  destruct (num_ltb bs (value a)); apply IH.
Qed.

Lemma basic_get_move_unfold (d : Difficulty) (b : Board) :
  Basic.get_move d b
  = match first_best (fun p => Int (Basic.cell_score d b p)) (empty_cells b)
                     NegInf None with
    | Some move => move
    | None => (size b / 2, size b / 2)
    end.
Proof.
  unfold Basic.get_move.
  pose proof (scan_fold (is_valid_move b)
                (fun (st : Number * option (Z * Z)) p =>
                   if num_ltb (fst st) (Int (Basic.cell_score d b p))
                   then (Int (Basic.cell_score d b p), Some p) else st)
                (range 0 (size b)) (range 0 (size b)) (NegInf, None)) as H.
  unfold Basic.cell_score in H at 1 2. cbn [fst snd] in H.
  cbv zeta. rewrite H. clear H.
  pose proof (fold_first_best (fun p => Int (Basic.cell_score d b p))
                (empty_cells b) NegInf None) as H.
  unfold empty_cells, all_cells in *.
  destruct (fold_left _ _ (NegInf, None)) as [bs best].
  cbn [snd] in H. now rewrite H.
Qed.

Lemma basic_score_no_stones (d : Difficulty) (b : Board) (p : Z * Z) :
  stones b = [] -> Basic.cell_score d b p = 0.
Proof.
  intros Hs. destruct b as [n l lm]. cbn [stones] in Hs. subst l.
  now destruct d.
Qed.

(** X22.  The player of game.py plays the first empty cell, row by row, whose
    sum of the two colours' scores is greatest; it falls back on the centre
    only when no cell is empty; on a board without stones it plays the
    corner (0,0), not the centre. *)
Theorem basic_get_move_first_best (d : Difficulty) (b : Board) :
  (empty_cells b = [] -> Basic.get_move d b = (size b / 2, size b / 2)) /\
  (empty_cells b <> [] ->
   exists l1 p l2,
     empty_cells b = l1 ++ p :: l2 /\ Basic.get_move d b = p /\
     (forall q, In q l1 -> Basic.cell_score d b q < Basic.cell_score d b p) /\
     (forall q, In q l2 -> Basic.cell_score d b q <= Basic.cell_score d b p)) /\
  (stones b = [] -> 0 < size b -> Basic.get_move d b = (0, 0)).
Proof.
  rewrite basic_get_move_unfold.
  assert (Hsome : empty_cells b <> [] ->
            exists l1 p l2,
              empty_cells b = l1 ++ p :: l2 /\
              first_best (fun p => Int (Basic.cell_score d b p)) (empty_cells b)
                         NegInf None = Some p /\
              (forall q, In q l1 ->
                         Basic.cell_score d b q < Basic.cell_score d b p) /\
              (forall q, In q l2 ->
                         Basic.cell_score d b q <= Basic.cell_score d b p)).
  { intros Hne.
    destruct (first_best_spec (fun p => Int (Basic.cell_score d b p))
                (empty_cells b) NegInf None)
      as [[_ Hall] | [l1 [p [l2 [Hl [Hf [_ [H1 H2]]]]]]]].
    - destruct (empty_cells b) as [|q l]; [ now contradiction Hne | ].
      specialize (Hall q (or_introl eq_refl)). discriminate Hall.
    - exists l1, p, l2. repeat split; trivial.
      + intros q Hq. specialize (H1 q Hq). now apply Z.ltb_lt in H1.
      + intros q Hq. specialize (H2 q Hq). unfold num_leb in H2. simpl in H2.
        apply negb_true_iff, Z.ltb_ge in H2. exact H2. }
  split; [ | split ].
  - now intros ->.
  - intros Hne. destruct (Hsome Hne) as [l1 [p [l2 [Hl [Hf [H1 H2]]]]]].
    exists l1, p, l2. rewrite Hf. repeat split; trivial.
  - intros Hs Hn.
    assert (Hhead : exists l, empty_cells b = (0, 0) :: l).
    { unfold empty_cells, all_cells, range.
      destruct (Z.to_nat (size b - 0)) as [|k] eqn:E; [ lia | ].
      cbn [seq map list_prod app filter fst snd Z.of_nat Z.add].
      assert (Hv : is_valid_move b 0 0 = true).
      { apply is_valid_move_spec. split; [ unfold in_bounds; lia | ].
        intros [s [Hin _]]. rewrite Hs in Hin. destruct Hin. }
      rewrite Hv. eauto. }
    destruct Hhead as [l Hl].
    destruct Hsome as [l1 [p [l2 [Hl' [Hf [H1 _]]]]]];
      [ rewrite Hl; discriminate | ].
    rewrite Hf. destruct l1 as [|q l1].
    + rewrite Hl in Hl'. now inversion Hl'.
    + specialize (H1 q (or_introl eq_refl)).
      rewrite !(basic_score_no_stones d b _ Hs) in H1. lia.
Qed.

Lemma basic_get_move_first_best_witness :
  Basic.get_move MEDIUM Board_init = (0, 0).
Proof.
  apply (proj2 (proj2 (basic_get_move_first_best MEDIUM Board_init))).
  - reflexivity.
  - reflexivity.
Defined.

(** ** The win test of main.py *)

Lemma mem_In (p : Z * Z) (l : list (Z * Z)) : Main.mem p l = true <-> In p l.
Proof.
  unfold Main.mem. rewrite existsb_exists. split.
  - intros [q [Hin Hq]]. apply andb_true_iff in Hq.
    rewrite !Z.eqb_eq in Hq. destruct p, q. simpl in Hq.
    destruct Hq as [-> ->]. exact Hin.
  - intros Hin. exists p. split; trivial. now rewrite !Z.eqb_refl.
Qed.

Lemma line_of_five_cells (l : list (Z * Z)) (m n dx dy : Z) :
  Main.line_of_five l m n (dx, dy)
  <-> (In (m, n) l /\ In (m + dx, n + dy) l /\ In (m + 2 * dx, n + 2 * dy) l /\
       In (m + 3 * dx, n + 3 * dy) l /\ In (m + 4 * dx, n + 4 * dy) l) /\
      0 <= m < BOARD_SIZE /\ 0 <= n < BOARD_SIZE /\
      0 <= m + 4 * dx < BOARD_SIZE /\ 0 <= n + 4 * dy < BOARD_SIZE.
Proof.
  unfold Main.line_of_five. cbn [fst snd]. change BOARD_SIZE with 15. split.
  - intros H.
    pose proof (H 0 ltac:(lia)) as H0. pose proof (H 1 ltac:(lia)) as H1.
    pose proof (H 2 ltac:(lia)) as H2. pose proof (H 3 ltac:(lia)) as H3.
    pose proof (H 4 ltac:(lia)) as H4.
    replace (m + 0 * dx) with m in H0 by ring.
    replace (n + 0 * dy) with n in H0 by ring.
    replace (m + 1 * dx) with (m + dx) in H1 by ring.
    replace (n + 1 * dy) with (n + dy) in H1 by ring.
    repeat split; tauto || lia.
  - intros [[I0 [I1 [I2 [I3 I4]]]] Hb] i Hi.
    assert (Hcase : i = 0 \/ i = 1 \/ i = 2 \/ i = 3 \/ i = 4) by lia.
    destruct Hcase as [-> | [-> | [-> | [-> | ->]]]].
    + replace (m + 0 * dx) with m by ring. replace (n + 0 * dy) with n by ring.
      split; [ exact I0 | lia ].
    + replace (m + 1 * dx) with (m + dx) by ring.
      replace (n + 1 * dy) with (n + dy) by ring. split; [ exact I1 | lia ].
    + split; [ exact I2 | lia ].
    + split; [ exact I3 | lia ].
    + split; [ exact I4 | lia ].
Qed.

(** X23.  [game_win] of main.py holds exactly when the list contains five cells
    in a row, horizontal, vertical or on either diagonal, that all lie on
    the 15x15 grid. *)
Theorem game_win_line_of_five (l : list (Z * Z)) :
  Main.game_win l = true
  <-> exists m n dir,
      In dir [(0, 1); (1, 0); (1, 1); (1, -1)] /\ Main.line_of_five l m n dir.
Proof.
  unfold Main.game_win. rewrite existsb_exists. split.
  - intros [m [Hm H]]. apply existsb_exists in H. destruct H as [n [Hn H]].
    apply in_range in Hm, Hn. exists m, n.
    repeat match type of H with
           | (if ?c then true else _) = true =>
               destruct c eqn:?E; [ clear H | ]
           end; try discriminate;
      repeat rewrite andb_true_iff in *; rewrite ?mem_In in *;
      rewrite ?Z.ltb_lt in *; rewrite ?Z.gtb_ltb, ?Z.ltb_lt in *;
      change BOARD_SIZE with 15 in *.
    + exists (0, 1). split; [ simpl; tauto | ].
      apply line_of_five_cells. change BOARD_SIZE with 15.
      replace (m + 0) with m by ring. replace (m + 2 * 0) with m by ring.
      replace (m + 3 * 0) with m by ring. replace (m + 4 * 0) with m by ring.
      replace (n + 2 * 1) with (n + 2) by ring.
      replace (n + 3 * 1) with (n + 3) by ring.
      replace (n + 4 * 1) with (n + 4) by ring.
      repeat split; tauto || lia.
    + exists (1, 0). split; [ simpl; tauto | ].
      apply line_of_five_cells. change BOARD_SIZE with 15.
      replace (n + 0) with n by ring. replace (n + 2 * 0) with n by ring.
      replace (n + 3 * 0) with n by ring. replace (n + 4 * 0) with n by ring.
      replace (m + 2 * 1) with (m + 2) by ring.
      replace (m + 3 * 1) with (m + 3) by ring.
      replace (m + 4 * 1) with (m + 4) by ring.
      repeat split; tauto || lia.
    + exists (1, 1). split; [ simpl; tauto | ].
      apply line_of_five_cells. change BOARD_SIZE with 15.
      replace (n + 2 * 1) with (n + 2) by ring.
      replace (n + 3 * 1) with (n + 3) by ring.
      replace (n + 4 * 1) with (n + 4) by ring.
      replace (m + 2 * 1) with (m + 2) by ring.
      replace (m + 3 * 1) with (m + 3) by ring.
      replace (m + 4 * 1) with (m + 4) by ring.
      repeat split; tauto || lia.
    + exists (1, -1). split; [ simpl; tauto | ].
      apply line_of_five_cells. change BOARD_SIZE with 15.
      replace (n + -1) with (n - 1) by ring.
      replace (n + 2 * -1) with (n - 2) by ring.
      replace (n + 3 * -1) with (n - 3) by ring.
      replace (n + 4 * -1) with (n - 4) by ring.
      replace (m + 2 * 1) with (m + 2) by ring.
      replace (m + 3 * 1) with (m + 3) by ring.
      replace (m + 4 * 1) with (m + 4) by ring.
      repeat split; tauto || lia.
  - intros [m [n [dir [Hdir Hline]]]].
    destruct dir as [dx dy]. apply line_of_five_cells in Hline.
    change BOARD_SIZE with 15 in *.
    destruct Hline as [[I0 [I1 [I2 [I3 I4]]]] [Bm [Bn [Bm4 Bn4]]]].
    apply mem_In in I0, I1, I2, I3, I4.
    exists m. split; [ apply in_range; lia | ].
    apply existsb_exists. exists n. split; [ apply in_range; lia | ].
    simpl in Hdir.
    destruct Hdir as [H | [H | [H | [H | []]]]]; inversion H; subst dx dy;
      clear H.
    + replace (m + 0) with m in * by ring.
      replace (m + 2 * 0) with m in * by ring.
      replace (m + 3 * 0) with m in * by ring.
      replace (m + 4 * 0) with m in * by ring.
      replace (n + 2 * 1) with (n + 2) in * by ring.
      replace (n + 3 * 1) with (n + 3) in * by ring.
      replace (n + 4 * 1) with (n + 4) in * by ring.
      rewrite I0, I1, I2, I3, I4.
      replace (n <? 15 - 4) with true by (symmetry; apply Z.ltb_lt; lia).
      reflexivity.
    + replace (n + 0) with n in * by ring.
      replace (n + 2 * 0) with n in * by ring.
      replace (n + 3 * 0) with n in * by ring.
      replace (n + 4 * 0) with n in * by ring.
      replace (m + 2 * 1) with (m + 2) in * by ring.
      replace (m + 3 * 1) with (m + 3) in * by ring.
      replace (m + 4 * 1) with (m + 4) in * by ring.
      rewrite I0, I1, I2, I3, I4.
      replace (m <? 15 - 4) with true by (symmetry; apply Z.ltb_lt; lia).
      cbn [andb]. now destruct (_ && _).
    + replace (n + 2 * 1) with (n + 2) in * by ring.
      replace (n + 3 * 1) with (n + 3) in * by ring.
      replace (n + 4 * 1) with (n + 4) in * by ring.
      replace (m + 2 * 1) with (m + 2) in * by ring.
      replace (m + 3 * 1) with (m + 3) in * by ring.
      replace (m + 4 * 1) with (m + 4) in * by ring.
      rewrite I0, I1, I2, I3, I4.
      replace (m <? 15 - 4) with true by (symmetry; apply Z.ltb_lt; lia).
      replace (n <? 15 - 4) with true by (symmetry; apply Z.ltb_lt; lia).
      cbn [andb].
      repeat match goal with
             | |- (if ?c then true else _) = true => destruct c; trivial
             end.
    + replace (n + -1) with (n - 1) in * by ring.
      replace (n + 2 * -1) with (n - 2) in * by ring.
      replace (n + 3 * -1) with (n - 3) in * by ring.
      replace (n + 4 * -1) with (n - 4) in * by ring.
      replace (m + 2 * 1) with (m + 2) in * by ring.
      replace (m + 3 * 1) with (m + 3) in * by ring.
      replace (m + 4 * 1) with (m + 4) in * by ring.
      rewrite I0, I1, I2, I3, I4.
      replace (m <? 15 - 4) with true by (symmetry; apply Z.ltb_lt; lia).
      replace (n >? 3) with true by (symmetry; rewrite Z.gtb_ltb; apply Z.ltb_lt; lia).
      cbn [andb].
      repeat match goal with
             | |- (if ?c then true else _) = true => destruct c; trivial
             end.
Qed.

(** ** Decided positions *)

Lemma get_winner_game_over (b : Board) (c : Color) :
  get_winner b = Some c -> is_game_over b = true.
Proof.
  unfold get_winner, is_game_over. destruct (last_move b) as [lm|]; [ | discriminate ].
  destruct (check_win b (Some lm)); [ reflexivity | discriminate ].
Qed.

(** X7.  The static evaluation is +infinity exactly when the last move has won
    for WHITE and -infinity exactly when it has won for BLACK; a game is
    over exactly when it has a winner or the stone count is the square of
    the size. *)
Theorem evaluate_board_sentinels (d : Difficulty) (b : Board) :
  (_evaluate_board d b = PosInf <-> get_winner b = Some WHITE) /\
  (_evaluate_board d b = NegInf <-> get_winner b = Some BLACK) /\
  (is_game_over b = true
   <-> get_winner b <> None
       \/ Z.of_nat (length (stones b)) = size b * size b).
Proof.
  split; [ | split ].
  - split.
    + unfold _evaluate_board. destruct (is_game_over b); [ | discriminate ].
      destruct (get_winner b) as [w|]; [ | discriminate ].
      destruct (color_eqb w WHITE) eqn:E;
        [ apply color_eqb_eq in E; now subst | ].
      destruct (color_eqb w BLACK); discriminate.
    + intros H. unfold _evaluate_board.
      now rewrite (get_winner_game_over b WHITE H), H.
  - split.
    + unfold _evaluate_board. destruct (is_game_over b); [ | discriminate ].
      destruct (get_winner b) as [w|]; [ | discriminate ].
      destruct (color_eqb w WHITE); [ discriminate | ].
      destruct (color_eqb w BLACK) eqn:E; [ | discriminate ].
      apply color_eqb_eq in E. now subst.
    + intros H. unfold _evaluate_board.
      now rewrite (get_winner_game_over b BLACK H), H.
  - unfold is_game_over, get_winner.
    destruct (last_move b) as [lm|]; cbn [andb].
    + destruct (check_win b (Some lm)).
      * split; [ intros _; left; discriminate | reflexivity ].
      * rewrite Z.eqb_eq. split; [ now right | intros [H | H]; congruence ].
    + rewrite Z.eqb_eq. split; [ now right | intros [H | H]; congruence ].
Qed.

Lemma num_leb_posinf (a : Number) : num_leb PosInf a = true -> a = PosInf.
Proof. now destruct a. Qed.

(** A candidate that wins at once has the value +infinity. *)
Lemma white_wins_value (d : Difficulty) (b : Board) (q : Z * Z) :
  In q (_get_valid_moves d b) ->
  check_win (fst (place_stone b (fst q) (snd q) WHITE))
            (last_move (fst (place_stone b (fst q) (snd q) WHITE))) = true ->
  root_value d b q = PosInf.
Proof.
  destruct q as [x y]. cbn [fst snd]. intros Hin Hwin.
  apply in_get_valid_moves in Hin. destruct Hin as [Hv _].
  unfold root_value. cbn [fst snd].
  rewrite (place_stone_valid b x y WHITE Hv) in *. cbn [fst last_move] in *.
  assert (Hover : is_game_over (mkBoard (size b) (stones b ++ [mkStone x y WHITE])
                                        (Some (mkStone x y WHITE))) = true)
    by (unfold is_game_over; cbn [last_move]; now rewrite Hwin).
  rewrite (minimax_game_over _ _ _ _ Hover).
  unfold _evaluate_board, get_winner. rewrite Hover. cbn [last_move].
  now rewrite Hwin.
Qed.

(** X16.  When some candidate wins at once for WHITE, [get_move] returns a
    candidate whose search value is +infinity: it does not pass a win
    for a lesser move or for the centre fallback. *)
Theorem get_move_takes_a_win (d : Difficulty) (b : Board) (q : Z * Z) :
  In q (_get_valid_moves d b) ->
  check_win (fst (place_stone b (fst q) (snd q) WHITE))
            (last_move (fst (place_stone b (fst q) (snd q) WHITE))) = true ->
  In (fst (get_move d b)) (_get_valid_moves d b) /\
  root_value d b (fst (get_move d b)) = PosInf.
Proof.
  intros Hin Hwin. pose proof (white_wins_value d b q Hin Hwin) as Hq.
  rewrite get_move_unfold. cbn [fst].
  destruct (first_best_spec (root_value d b) (_get_valid_moves d b) NegInf None)
    as [[_ Hall] | [l1 [p [l2 [Hl [Hf [_ [H1 H2]]]]]]]].
  - specialize (Hall q Hin). rewrite Hq in Hall. discriminate Hall.
  - rewrite Hf. split; [ rewrite Hl; apply in_or_app; right; now left | ].
    rewrite Hl in Hin. apply in_app_or in Hin.
    destruct Hin as [Hin | [<- | Hin]]; trivial.
    + specialize (H1 q Hin). rewrite Hq in H1. discriminate H1.
    + specialize (H2 q Hin). rewrite Hq in H2. now apply num_leb_posinf.
Qed.

Lemma get_move_takes_a_win_witness :
  let b := run_ops [Place 3 0 WHITE; Place 4 0 WHITE; Place 5 0 WHITE;
                    Place 6 0 WHITE] Board_init in
  In (fst (get_move EASY b)) (_get_valid_moves EASY b) /\
  root_value EASY b (fst (get_move EASY b)) = PosInf.
Proof.
  apply (get_move_takes_a_win EASY
           (run_ops [Place 3 0 WHITE; Place 4 0 WHITE; Place 5 0 WHITE;
                     Place 6 0 WHITE] Board_init) (2, 0)).
  - vm_compute. tauto.
  - vm_compute. reflexivity.
Defined.

(** ** The human's click *)

(** X24.  When the human is to move on the 15x15 board, a click outside
    the board rectangle or on a cell that holds a stone changes nothing
    and plays nothing; a click inside the rectangle on a free cell
    appends a BLACK stone on the clicked cell, which becomes the last
    move, and first plays the placing sound. *)
Theorem human_click (g : Game) (px py : Z) :
  current_player g = HUMAN -> size (board g) = BOARD_SIZE ->
  let cell := get_board_position (px, py) in
  let r := handle_game_event g (MOUSEBUTTONDOWN (px, py)) in
  (~ (137 <= px < 662 /\ 37 <= py < 562) \/
   occupied (board g) (fst cell) (snd cell) -> r = (g, [])) /\
  (137 <= px < 662 /\ 37 <= py < 562 ->
   ~ occupied (board g) (fst cell) (snd cell) ->
   stones (board (fst r))
   = stones (board g) ++ [mkStone (fst cell) (snd cell) BLACK] /\
   last_move (board (fst r)) = Some (mkStone (fst cell) (snd cell) BLACK) /\
   hd_error (snd r) = Some (Play sound_place)).
Proof.
  intros Hp Hsize. cbv zeta.
  assert (Hin : in_bounds (board g) (fst (get_board_position (px, py)))
                          (snd (get_board_position (px, py)))
                <-> 137 <= px < 662 /\ 37 <= py < 562).
  { rewrite get_board_position_eq. unfold in_bounds. rewrite Hsize.
    cbn [fst snd]. change BOARD_SIZE with 15.
    Z.to_euclidean_division_equations. lia. }
  unfold handle_game_event. rewrite Hp.
  destruct (get_board_position (px, py)) as [x y]. cbn [fst snd] in *.
  split.
  - intros Hout.
    rewrite place_stone_invalid; [ reflexivity | ].
    apply not_true_iff_false. intros Hv. apply is_valid_move_spec in Hv.
    tauto.
  - intros Hrect Hfree.
    rewrite place_stone_valid by (apply is_valid_move_spec; tauto).
    cbn [last_move andb].
    destruct (check_win _ _).
    + cbn [fst snd]. rewrite (proj1 (proj2 (draw_fields _))). cbn.
      repeat split.
    + destruct (game_mode _); cbn [fst snd];
        rewrite (proj1 (proj2 (draw_fields _))); cbn; repeat split.
Qed.

Lemma human_click_witness :
  stones (board (fst (handle_game_event
                        (set_state PLAYING Game_init)
                        (MOUSEBUTTONDOWN (400, 300)))))
  = [mkStone 7 7 BLACK].
Proof.
  apply (proj2 (human_click (set_state PLAYING Game_init) 400 300
                  eq_refl eq_refl)).
  - lia.
  - intros [s [Hs _]]. exact Hs.
Defined.
